(** * PlaygroundLayout: project tree, active document and debounced persistence

    A shallow embedding of the state logic of
    [src/components/PlaygroundLayout.tsx]: the recursive file/folder tree,
    the path-addressed tree transforms used by the handlers
    ([updateFileContent], [addToTree], [deleteFromTree], [renameInTree],
    [sanitizeFileTree], [findFileByPath]), the effect that rebinds the
    current file to the tree, and the effect that persists the tree after a
    1200 ms quiet period. *)

From Stdlib Require Import String Ascii List Bool Arith Lia DecimalString.
Import ListNotations.
Open Scope string_scope.
Open Scope list_scope.

(* ================================================================== *)
(** ** JavaScript helpers *)

(** [a ?? d] on an optional value. *)
Definition nullish {A : Type} (o : option A) (d : A) : A :=
  match o with Some v => v | None => d end.

(** [s || d] on an optional string: [undefined] and the empty string are
    both falsy. *)
Definition or_else (o : option string) (d : string) : string :=
  match o with
  | Some EmptyString => d
  | Some s => s
  | None => d
  end.

(** [!s] on a string. *)
Definition falsy (s : string) : bool :=
  match s with EmptyString => true | _ => false end.

(** The first non-null result of [f] over a list: the shape of a [for]
    loop whose body returns as soon as a lookup succeeds. *)
Definition first_some {A B : Type} (f : A -> option B) : list A -> option B :=
  fix go (l : list A) : option B :=
    match l with
    | [] => None
    | x :: rest => match f x with Some r => Some r | None => go rest end
    end.

Definition slash : ascii := "/"%char.

(** [s.split('/')]: never empty, [''.split('/')] is [['']]. *)
Fixpoint split_slash (s : string) : list string :=
  match s with
  | EmptyString => [EmptyString]
  | String c rest =>
      if Ascii.eqb c slash then EmptyString :: split_slash rest
      else match split_slash rest with
           | seg :: segs => String c seg :: segs
           | [] => [String c EmptyString]
           end
  end.

(** [parts.join('/')]. *)
Fixpoint join_slash (parts : list string) : string :=
  match parts with
  | [] => EmptyString
  | [seg] => seg
  | seg :: rest => seg ++ String slash (join_slash rest)
  end.

(** [parts[parts.length - 1] = x] on an array: an empty array has no last
    element to overwrite (the assignment would create the property [-1],
    which [join] does not see). *)
Definition set_last (parts : list string) (x : string) : list string :=
  match parts with
  | [] => []
  | _ => removelast parts ++ [x]
  end.

(* ================================================================== *)
(** ** Data model *)

Inductive NodeType : Type := File | Folder.

Definition NodeType_eqb (a b : NodeType) : bool :=
  match a, b with
  | File, File | Folder, Folder => true
  | _, _ => false
  end.

Unset Elimination Schemes.

(** Modelled from the spec: the declaration of [FileNode] lives in
    [./FileExplorer], which is not part of the sources at hand.  The fields
    are the ones the layout reads and writes: [id], [name], [type], [path],
    the optional [content] and the optional [children].  [None] stands for a
    property that is [undefined] (or not there at all).  Objects that come
    from the backend or from a template may own further properties; they are
    kept, in order, in [extra] as key/value pairs so that object spread
    copies them and [sanitizeFileTree] can be seen to drop them. *)
Inductive FileNode : Type :=
  mkNode {
    id : string;
    name : string;
    type : NodeType;
    path : string;
    content : option string;
    children : option (list FileNode);
    extra : list (string * string)
  }.

Set Elimination Schemes.

Definition Tree : Type := list FileNode.

(** Induction over a node that also gives the property for every child. *)
Section FileNode_induction.
Variable P : FileNode -> Prop.
Hypothesis P_leaf : forall i n t p c e, P (mkNode i n t p c None e).
Hypothesis P_inner : forall i n t p c cs e,
    Forall P cs -> P (mkNode i n t p c (Some cs) e).

Fixpoint FileNode_ind (x : FileNode) : P x :=
  match x with
  | mkNode i n t p c None e => P_leaf i n t p c e
  | mkNode i n t p c (Some cs) e =>
      P_inner i n t p c cs e
        ((fix all (l : list FileNode) : Forall P l :=
            match l with
            | [] => Forall_nil P
            | y :: l' => Forall_cons y (FileNode_ind y) (all l')
            end) cs)
  end.
End FileNode_induction.

(** Object spread with one property overridden. *)
Definition with_content (n : FileNode) (c : option string) : FileNode :=
  mkNode (id n) (name n) (type n) (path n) c (children n) (extra n).

Definition with_children (n : FileNode) (cs : option (list FileNode)) : FileNode :=
  mkNode (id n) (name n) (type n) (path n) (content n) cs (extra n).

Definition with_name_path (n : FileNode) (nm p : string) : FileNode :=
  mkNode (id n) nm (type n) p (content n) (children n) (extra n).

(** Every node of a tree, parent before children, children in stored
    order. *)
Fixpoint subtree (n : FileNode) : list FileNode :=
  n :: match n with
       | mkNode _ _ _ _ _ (Some cs) _ => flat_map subtree cs
       | mkNode _ _ _ _ _ None _ => []
       end.

Definition all_nodes (t : Tree) : list FileNode := flat_map subtree t.

Definition descendants (n : FileNode) : list FileNode :=
  match children n with Some cs => all_nodes cs | None => [] end.

Definition all_paths (t : Tree) : list string := map path (all_nodes t).

(* ================================================================== *)
(** ** Tree operations *)

(** [findFileByPath] (the same local function in the rebinding effect and in
    [handleFileSelect]). *)
Fixpoint findFileByPath_node (targetPath : string) (node : FileNode)
  : option FileNode :=
  if (String.eqb (path node) targetPath && NodeType_eqb (type node) File)%bool
  then Some node
  else match node with
       | mkNode _ _ _ _ _ (Some cs) _ =>
           first_some (findFileByPath_node targetPath) cs
       | mkNode _ _ _ _ _ None _ => None
       end.

Definition findFileByPath (nodes : Tree) (targetPath : string)
  : option FileNode :=
  first_some (findFileByPath_node targetPath) nodes.

(** [sanitizeFileTree]: the callback of [nodes.map], then the map. *)
Fixpoint sanitize_node (node : FileNode) : FileNode :=
  match type node with
  | File =>
      mkNode (id node) (name node) (type node) (path node)
        (Some (nullish (content node) EmptyString)) None []
  | Folder =>
      mkNode (id node) (name node) (type node) (path node) None
        (Some match node with
              | mkNode _ _ _ _ _ (Some cs) _ => map sanitize_node cs
              | mkNode _ _ _ _ _ None _ => []
              end) []
  end.

Definition sanitizeFileTree (nodes : Tree) : Tree := map sanitize_node nodes.

(** [updateFileContent] of [handleCodeChange]; [target] is
    [currentFile.path]. *)
Fixpoint updateFileContent_node (target newCode : string) (node : FileNode)
  : FileNode :=
  if String.eqb (path node) target then with_content node (Some newCode)
  else match node with
       | mkNode i n t p c (Some cs) e =>
           mkNode i n t p c (Some (map (updateFileContent_node target newCode) cs)) e
       | mkNode _ _ _ _ _ None _ => node
       end.

Definition updateFileContent (target newCode : string) (nodes : Tree) : Tree :=
  map (updateFileContent_node target newCode) nodes.

(** [newNode] of [handleFileCreate]; [stamp] is [Date.now().toString()]. *)
Definition newNode (stamp parentPath nm : string) (ty : NodeType) : FileNode :=
  mkNode stamp nm ty
    (if String.eqb parentPath "/" then "/" ++ nm else parentPath ++ "/" ++ nm)
    (match ty with File => Some EmptyString | Folder => None end)
    (match ty with Folder => Some [] | File => None end)
    [].

(** [addToTree] of [handleFileCreate]. *)
Fixpoint addToTree_node (parentPath : string) (new : FileNode) (node : FileNode)
  : FileNode :=
  if (String.eqb (path node) parentPath && NodeType_eqb (type node) Folder)%bool
  then with_children node (Some (nullish (children node) [] ++ [new]))
  else match node with
       | mkNode i n t p c (Some cs) e =>
           mkNode i n t p c
             (Some (if String.eqb parentPath "/" then cs ++ [new]
                    else map (addToTree_node parentPath new) cs)) e
       | mkNode _ _ _ _ _ None _ => node
       end.

Definition addToTree (parentPath : string) (new : FileNode) (nodes : Tree) : Tree :=
  if String.eqb parentPath "/" then nodes ++ [new]
  else map (addToTree_node parentPath new) nodes.

(** [nodes.filter(keep).map(f)] in one pass, so that a function that calls
    itself on filtered children is structurally recursive. *)
Definition filter_map {A B : Type} (keep : A -> bool) (f : A -> B)
  : list A -> list B :=
  fix go (l : list A) : list B :=
    match l with
    | [] => []
    | x :: rest => if keep x then f x :: go rest else go rest
    end.

(** The filter of [deleteFromTree]: [node.path !== path]. *)
Definition survives (target : string) (node : FileNode) : bool :=
  negb (String.eqb (path node) target).

(** [deleteFromTree] of [handleFileDelete]: filter, then rebuild every
    survivor with its children filtered in turn. *)
Fixpoint deleteFromTree_node (target : string) (node : FileNode) : FileNode :=
  match node with
  | mkNode i n t p c (Some cs) e =>
      mkNode i n t p c
        (Some (filter_map (survives target) (deleteFromTree_node target) cs)) e
  | mkNode i n t p c None e => mkNode i n t p c None e
  end.

Definition deleteFromTree (target : string) (nodes : Tree) : Tree :=
  filter_map (survives target) (deleteFromTree_node target) nodes.

(** The path computed by [renameInTree] for the renamed node. *)
Definition renamed_path (p newName : string) : string :=
  join_slash (set_last (split_slash p) newName).

(** [renameInTree] of [handleFileRename]. *)
Fixpoint renameInTree_node (target newName : string) (node : FileNode)
  : FileNode :=
  if String.eqb (path node) target
  then with_name_path node newName (renamed_path target newName)
  else match node with
       | mkNode i n t p c (Some cs) e =>
           mkNode i n t p c (Some (map (renameInTree_node target newName) cs)) e
       | mkNode _ _ _ _ _ None _ => node
       end.

Definition renameInTree (target newName : string) (nodes : Tree) : Tree :=
  map (renameInTree_node target newName) nodes.

(** [findFirstFile]: the first file in depth-first order; a folder is only
    entered when its [children] array is there and not empty. *)
Fixpoint findFirstFile_node (n : FileNode) : option FileNode :=
  match type n with
  | File => Some n
  | Folder =>
      match n with
      | mkNode _ _ _ _ _ (Some (c :: cs)) _ => first_some findFirstFile_node (c :: cs)
      | _ => None
      end
  end.

Definition findFirstFile (nodes : Tree) : option FileNode :=
  first_some findFirstFile_node nodes.

Definition option_string_eqb (a b : option string) : bool :=
  match a, b with
  | Some x, Some y => String.eqb x y
  | None, None => true
  | _, _ => false
  end.

(** The body of the effect on [[files, currentFile?.path]]: the value of
    [currentFile] once the effect has run. *)
Definition reconcile (files : Tree) (currentFile : option FileNode)
  : option FileNode :=
  match currentFile with
  | None => None
  | Some cur =>
      match findFileByPath files (path cur) with
      | Some latestFile =>
          if negb (option_string_eqb (content latestFile) (content cur))
          then Some latestFile
          else Some cur
      | None => Some cur
      end
  end.

(* ================================================================== *)
(** ** Component state, timers and the debounced persist effect *)

(** The closure handed to [setTimeout] by the persist effect: the [files]
    and the [projectId] of the render that armed it, and the instant (in
    ms) at which it is due. *)
Record Timer : Type := mkTimer {
  due : nat;
  t_files : Tree;
  t_projectId : string
}.

(** One [PUT /api/projects/{id}/files] with its body. *)
Record WriteReq : Type := mkWrite {
  w_time : nat;
  w_projectId : string;
  w_payload : Tree
}.

(** How the [fetch] of the timer callback ends.  [RespNotOk body status]: a
    response whose [ok] is false; [body] is [None] when [res.json()]
    rejects and otherwise holds [errorData.error].  [RespThrown m]: [fetch]
    rejects with an error whose [message] is [m]. *)
Inductive Response : Type :=
| RespOk
| RespNotOk (body : option (option string)) (status : nat)
| RespThrown (message : option string).

(** The part of the component's state that the tree, the current file and
    the persist effect live in.  [timers] is the table of pending timeouts
    armed by the persist effect, [persist_cleanup] the handle that the
    clean-up returned by its last run would clear, [writes] the requests
    sent so far, [inflight] the number of them that have not settled.  The
    settings, the preview and the two other timed effects of the component
    (the 2000 ms "auto-save" stamp and the 1000 ms preview refresh) are left
    out: they read the tree but write neither the tree, nor the project
    identifier, nor the save error.  The auto-save stamp does call
    [setLastSaved], so [lastSaved] here is the time of the last write that
    settled, not what the component shows as time passes. *)
Record State : Type := mkState {
  files : Tree;
  currentFile : option FileNode;
  projectId : option string;
  saveError : option string;
  lastSaved : option nat;
  clock : nat;
  timers : list (nat * Timer);
  next_timer : nat;
  persist_cleanup : option nat;
  writes : list WriteReq;
  inflight : nat
}.

Definition initial : State :=
  mkState [] None None None None 0 [] 0 None [] 0.

Definition set_files (v : Tree) (s : State) : State :=
  mkState v (currentFile s) (projectId s) (saveError s) (lastSaved s) (clock s)
    (timers s) (next_timer s) (persist_cleanup s) (writes s) (inflight s).

Definition set_currentFile (v : option FileNode) (s : State) : State :=
  mkState (files s) v (projectId s) (saveError s) (lastSaved s) (clock s)
    (timers s) (next_timer s) (persist_cleanup s) (writes s) (inflight s).

Definition set_projectId (v : option string) (s : State) : State :=
  mkState (files s) (currentFile s) v (saveError s) (lastSaved s) (clock s)
    (timers s) (next_timer s) (persist_cleanup s) (writes s) (inflight s).

Definition set_saveError (v : option string) (s : State) : State :=
  mkState (files s) (currentFile s) (projectId s) v (lastSaved s) (clock s)
    (timers s) (next_timer s) (persist_cleanup s) (writes s) (inflight s).

Definition set_lastSaved (v : option nat) (s : State) : State :=
  mkState (files s) (currentFile s) (projectId s) (saveError s) v (clock s)
    (timers s) (next_timer s) (persist_cleanup s) (writes s) (inflight s).

Definition set_clock (v : nat) (s : State) : State :=
  mkState (files s) (currentFile s) (projectId s) (saveError s) (lastSaved s) v
    (timers s) (next_timer s) (persist_cleanup s) (writes s) (inflight s).

Definition set_timers (v : list (nat * Timer)) (s : State) : State :=
  mkState (files s) (currentFile s) (projectId s) (saveError s) (lastSaved s)
    (clock s) v (next_timer s) (persist_cleanup s) (writes s) (inflight s).

Definition set_persist_cleanup (v : option nat) (s : State) : State :=
  mkState (files s) (currentFile s) (projectId s) (saveError s) (lastSaved s)
    (clock s) (timers s) (next_timer s) v (writes s) (inflight s).

(** [setTimeout(cb, delay)]: the new timer joins the table under a fresh
    handle, which is returned. *)
Definition setTimeout (delay : nat) (fs : Tree) (pid : string) (s : State)
  : nat * State :=
  (next_timer s,
   mkState (files s) (currentFile s) (projectId s) (saveError s) (lastSaved s)
     (clock s)
     (timers s ++ [(next_timer s, mkTimer (clock s + delay) fs pid)])
     (S (next_timer s)) (persist_cleanup s) (writes s) (inflight s)).

(** [clearTimeout(t)]. *)
Definition clearTimeout (t : nat) (s : State) : State :=
  mkState (files s) (currentFile s) (projectId s) (saveError s) (lastSaved s)
    (clock s)
    (filter (fun e => negb (Nat.eqb (fst e) t)) (timers s))
    (next_timer s) (persist_cleanup s) (writes s) (inflight s).

Definition quiet_period : nat := 1200.

(** The effect on [[files, projectId]], run after a render in which one of
    the two changed: first the clean-up that the previous run returned, then
    the body. *)
Definition persist_effect (s : State) : State :=
  let s1 := match persist_cleanup s with
            | Some t => clearTimeout t s
            | None => s
            end in
  match projectId s1 with
  | None => set_persist_cleanup None s1
  | Some pid =>
      if falsy pid then set_persist_cleanup None s1
      else match files s1 with
           | [] => set_persist_cleanup None s1
           | _ :: _ =>
               let (t, s2) := setTimeout quiet_period (files s1) pid s1 in
               set_persist_cleanup (Some t) s2
           end
  end.

(** The effect on [[files, currentFile?.path]]. *)
Definition rebind_effect (s : State) : State :=
  set_currentFile (reconcile (files s) (currentFile s)) s.

(** What follows a render in which [files] changed: both effects run, in
    the order in which the component declares them. *)
Definition files_changed (s : State) : State :=
  rebind_effect (persist_effect s).

(** The synchronous part of the timer callback: the error is cleared, the
    tree is sanitized and the request leaves. *)
Definition fire (t : Timer) (s : State) : State :=
  mkState (files s) (currentFile s) (projectId s) None (lastSaved s) (clock s)
    (timers s) (next_timer s) (persist_cleanup s)
    (writes s ++ [mkWrite (clock s) (t_projectId t) (sanitizeFileTree (t_files t))])
    (S (inflight s)).

Definition is_due (now : nat) (e : nat * Timer) : bool := Nat.leb (due (snd e)) now.

(** One millisecond passes; the timers that are due run, oldest first. *)
Definition tick (s : State) : State :=
  let now := S (clock s) in
  fold_left (fun acc e => fire (snd e) acc)
    (filter (is_due now) (timers s))
    (mkState (files s) (currentFile s) (projectId s) (saveError s) (lastSaved s)
       now (filter (fun e => negb (is_due now e)) (timers s))
       (next_timer s) (persist_cleanup s) (writes s) (inflight s)).

Fixpoint advance (ms : nat) (s : State) : State :=
  match ms with
  | 0 => s
  | S k => advance k (tick s)
  end.

(** [`HTTP ${res.status}`]. *)
Definition http_status (status : nat) : string :=
  "HTTP " ++ DecimalString.NilZero.string_of_uint (Nat.to_uint status).

(** The message handed to [setSaveError] when a write fails. *)
Definition failure_message (r : Response) : option string :=
  match r with
  | RespOk => None
  | RespNotOk None _ => Some "Unknown error"
  | RespNotOk (Some err) status => Some (or_else err (http_status status))
  | RespThrown m => Some (or_else m "Network error")
  end.

(** The rest of the timer callback, once the [fetch] of an outstanding
    request has settled. *)
Definition settle (r : Response) (s : State) : State :=
  match inflight s with
  | 0 => s
  | S k =>
      let s1 := mkState (files s) (currentFile s) (projectId s) (saveError s)
                  (lastSaved s) (clock s) (timers s) (next_timer s)
                  (persist_cleanup s) (writes s) k in
      match r with
      | RespOk => set_saveError None (set_lastSaved (Some (clock s1)) s1)
      | _ => set_saveError (failure_message r) s1
      end
  end.

(* ================================================================== *)
(** ** Handlers *)

Definition path_is (target : string) (f : option FileNode) : bool :=
  match f with Some n => String.eqb (path n) target | None => false end.

Definition handleCodeChange (newCode : string) (s : State) : State :=
  match currentFile s with
  | None => s
  | Some cur =>
      files_changed
        (set_currentFile (Some (with_content cur (Some newCode)))
           (set_files (updateFileContent (path cur) newCode (files s)) s))
  end.

Definition handleFileCreate (stamp parentPath nm : string) (ty : NodeType)
    (s : State) : State :=
  let new := newNode stamp parentPath nm ty in
  let s1 := set_files (addToTree parentPath new (files s)) s in
  files_changed
    match ty with
    | File => set_currentFile (Some new) s1
    | Folder => s1
    end.

Definition handleFileDelete (target : string) (s : State) : State :=
  let updatedFiles := deleteFromTree target (files s) in
  let s1 := set_files updatedFiles s in
  files_changed
    (if path_is target (currentFile s)
     then set_currentFile (hd_error updatedFiles) s1
     else s1).

Definition handleFileRename (target newName : string) (s : State) : State :=
  let updatedFiles := renameInTree target newName (files s) in
  let s1 := set_files updatedFiles s in
  files_changed
    (if path_is target (currentFile s)
     then match find (fun f => String.eqb (name f) newName) updatedFiles with
          | Some f => set_currentFile (Some f) s1
          | None => s1
          end
     else s1).

(** Whether [currentFile?.path] differs between two renders. *)
Definition path_changed (old new : option FileNode) : bool :=
  negb (option_string_eqb (option_map path old) (option_map path new)).

Definition handleFileSelect (file : FileNode) (s : State) : State :=
  match type file with
  | File =>
      let s1 := set_currentFile
                  (Some (nullish (findFileByPath (files s) (path file)) file)) s in
      if path_changed (currentFile s) (currentFile s1)
      then rebind_effect s1
      else s1
  | Folder => s
  end.

(** [loadTemplate], and the start-up migration of code saved by an older
    version: the tree is replaced by a template whose first top-level node
    becomes the current file. *)
Definition loadTemplate (template : Tree) (s : State) : State :=
  files_changed (set_currentFile (hd_error template) (set_files template s)).

(** The tree is replaced wholesale: the outcome of the start-up effect, of
    [loadProject] and of [createNewProject] ([pid] is the identifier they
    bind), and of the start-up fallback ([None]: no identifier is bound). *)
Definition seed (pid : option string) (tree : Tree) (s : State) : State :=
  let s1 := match pid with
            | Some p => set_projectId (Some p) s
            | None => s
            end in
  files_changed (set_currentFile (findFirstFile tree) (set_files tree s1)).

(** The editor, whose [onChange] is [handleCodeChange], is rendered only
    while [currentFile] is there and is a file. *)
Definition editor_mounted (s : State) : bool :=
  match currentFile s with
  | Some cur => NodeType_eqb (type cur) File
  | None => false
  end.

(** What can happen to the component. *)
Inductive Event : Type :=
| CodeChange (newCode : string)
| Select (file : FileNode)
| Create (stamp parentPath nm : string) (ty : NodeType)
| Delete (target : string)
| Rename (target newName : string)
| Seed (pid : option string) (tree : Tree)
| LoadTemplate (template : Tree)
| Advance (ms : nat)
| Settle (r : Response).

Definition handle (e : Event) (s : State) : State :=
  match e with
  | CodeChange c => if editor_mounted s then handleCodeChange c s else s
  | Create stamp pp nm ty => handleFileCreate stamp pp nm ty s
  | Delete p => handleFileDelete p s
  | Rename p nm => handleFileRename p nm s
  | Select file => handleFileSelect file s
  | Seed pid tree => seed pid tree s
  | LoadTemplate template => loadTemplate template s
  | Advance ms => advance ms s
  | Settle r => settle r s
  end.

Definition run (es : list Event) (s : State) : State :=
  fold_left (fun acc e => handle e acc) es s.

(** The states the component can be in. *)
Definition reachable (s : State) : Prop := exists es, s = run es initial.

(** The events that call [setFiles] on a tree derived from the current one:
    the four editing handlers (there is no code change while the editor is
    not rendered). *)
Definition mutates (e : Event) (s : State) : bool :=
  match e with
  | CodeChange _ => editor_mounted s
  | Create _ _ _ _ | Delete _ | Rename _ _ => true
  | Select _ | Seed _ _ | LoadTemplate _ | Advance _ | Settle _ => false
  end.

(** A run of edits: each entry is the time that passes before the edit,
    and the edit. *)
Fixpoint burst (b : list (nat * Event)) (s : State) : State :=
  match b with
  | [] => s
  | (gap, e) :: rest => burst rest (handle e (advance gap s))
  end.

(** Every edit of the run changes the tree and comes strictly within the
    quiet period after the one before it. *)
Fixpoint within_quiet_period (b : list (nat * Event)) (s : State) : Prop :=
  match b with
  | [] => True
  | (gap, e) :: rest =>
      gap < quiet_period /\
      mutates e (advance gap s) = true /\
      within_quiet_period rest (handle e (advance gap s))
  end.

(** [v] if the tree has a node, nothing otherwise. *)
Definition when_nonempty {A : Type} (t : Tree) (v : list A) : list A :=
  match t with
  | [] => []
  | _ :: _ => v
  end.

(** The timers the persist effect leaves behind when it runs with these
    values of [projectId] and [files] at instant [now] and takes handle
    [t]. *)
Definition armed (pid : option string) (fs : Tree) (now t : nat)
  : list (nat * Timer) :=
  match pid with
  | None => []
  | Some p =>
      if falsy p then []
      else match fs with
           | [] => []
           | _ :: _ => [(t, mkTimer (now + quiet_period) fs p)]
           end
  end.

(** The timer [e] is the one the last run of the persist effect armed: its
    handle is the one the clean-up would clear, it holds the current tree,
    which is not empty, and the bound identifier, and it is not yet due. *)
Definition timer_current (s : State) (e : nat * Timer) : Prop :=
  persist_cleanup s = Some (fst e) /\
  t_files (snd e) = files s /\ files s <> [] /\
  projectId s = Some (t_projectId (snd e)) /\
  falsy (t_projectId (snd e)) = false /\
  clock s < due (snd e) /\ due (snd e) <= clock s + quiet_period.

(** At most one timer is pending, and the clean-up knows it. *)
Definition single_timer (s : State) : Prop :=
  timers s = [] \/
  exists e, timers s = [e] /\ persist_cleanup s = Some (fst e).

(** What holds of the requests and the timers in every state the component
    can reach: no request carries an empty tree, and a pending timer is the
    current one. *)
Definition inv (s : State) : Prop :=
  (forall w, In w (writes s) -> w_payload w <> []) /\
  (timers s = [] \/ exists e, timers s = [e] /\ timer_current s e).

(* ================================================================== *)
(** ** The same update over an object store

    JavaScript arrays and objects are references.  To say that
    [updateFileContent] leaves its input alone, the tree is also laid out in
    a store of objects: a node object holds its scalar properties and, for
    [children], the address of an array object; an array object holds the
    addresses of its elements.  [map] and object spread allocate; nothing in
    [updateFileContent] assigns to a property of an object it was given. *)

Record HeapNode : Type := mkHeapNode {
  h_id : string;
  h_name : string;
  h_type : NodeType;
  h_path : string;
  h_content : option string;
  h_children : option nat;
  h_extra : list (string * string)
}.

Inductive Obj : Type :=
| ONode (o : HeapNode)
| OArray (elems : list nat).

(** Addresses are positions; allocation appends.  An object gets its
    address when it is complete, so a rebuilt folder comes after its new
    array of children; only the numbering depends on that. *)
Definition Heap : Type := list Obj.










(* ================================================================== *)
(** ** Sample projects *)

Definition file_node (i nm p c : string) : FileNode :=
  mkNode i nm File p (Some c) None [].

Definition folder_node (i nm p : string) (cs : list FileNode) : FileNode :=
  mkNode i nm Folder p None (Some cs) [].

Definition a_txt : FileNode := file_node "2" "a.txt" "/src/a.txt" "x".

Definition src_folder : FileNode := folder_node "1" "src" "/src" [a_txt].

(** A folder with one file, and a file next to it that came from the
    backend with properties of its own and without [content]. *)
Definition src_project : Tree :=
  [ src_folder;
    mkNode "3" "App.tsx" File "/App.tsx" None None
      [("_id", "65f0c1"); ("updatedAt", "2024-03-12")] ].

(** The same folder in an object store: the file, the array of the
    folder's children, the folder, the top-level array. *)
Definition src_heap : Heap :=
  [ ONode (mkHeapNode "2" "a.txt" File "/src/a.txt" (Some "x") None []);
    OArray [0];
    ONode (mkHeapNode "1" "src" Folder "/src" None (Some 1) []);
    OArray [2] ].

(** The project [src_project] minus its top-level file has been loaded
    under the identifier [p1]; [a.txt] is the current file. *)
Definition src_loaded : State := run [Seed (Some "p1") [src_folder]] initial.

(** Three edits in a row: a key stroke, a rename 300 ms later and another
    key stroke 1199 ms after that. *)
Definition src_edited : State :=
  burst [(300, Rename "/src" "lib"); (1199, CodeChange "z")]
    (handle (CodeChange "y") src_loaded).

(** The first write of [src_loaded] has been sent and is outstanding. *)
Definition src_writing : State := advance 1200 src_loaded.

(** A project with a single file, loaded under the identifier [p1]. *)
Definition one_file_loaded : State :=
  run [Seed (Some "p1") [file_node "1" "a.txt" "/a.txt" "x"]] initial.

(** That project after its first write has been acknowledged and its file
    deleted. *)
Definition one_file_deleted : State :=
  run [Advance 1200; Settle RespOk; Delete "/a.txt"] one_file_loaded.

(** The folder [/src] has been renamed to [lib], which leaves its file at
    [/src/a.txt]; then a new folder [src] and a new file [a.txt] in it have
    been created. *)
Definition src_recreated : State :=
  run [Seed (Some "p1") [src_folder]; Rename "/src" "lib";
       Create "3" "/" "src" Folder; Create "4" "/src" "a.txt" File] initial.

(** The folder [/d], which holds the file [/d/x], has been renamed to
    [d/x]: folder and file now share the path [/d/x]. *)
Definition d_renamed : State :=
  run [Seed (Some "p1") [folder_node "1" "d" "/d" [file_node "2" "x" "/d/x" "c"]];
       Rename "/d" "d/x"] initial.



(* ================================================================== *)
(** ** Predicates used in the statements *)

(** [node.children || []]. *)
Definition kids (n : FileNode) : Tree := nullish (children n) [].

(** With unique paths, what lies below a node at [target] is gone. *)
Definition cascades (target : string) (t : Tree) : Prop :=
  forall f d,
    NoDup (all_paths t) -> In f (all_nodes t) -> path f = target ->
    In d (descendants f) ->
    ~ In (path d) (all_paths (deleteFromTree target t)).

(** The nodes below a node at [target] are found again, untouched, in the
    renamed tree. *)
Definition keeps_descendants (target newName : string) (t : Tree) : Prop :=
  forall f d,
    In f (all_nodes t) -> path f = target -> In d (descendants f) ->
    In d (all_nodes (renameInTree target newName t)).

(** With unique paths, the node at [target] is found again with its new
    name and path and everything else as it was. *)
Definition renames_node (target newName : string) (t : Tree) : Prop :=
  forall f,
    NoDup (all_paths t) -> In f (all_nodes t) -> path f = target ->
    In (with_name_path f newName (renamed_path target newName))
       (all_nodes (renameInTree target newName t)).

(** The properties of a node other than [children]. *)
Definition scalars (n : FileNode)
  : string * string * NodeType * string * option string * list (string * string) :=
  (id n, name n, type n, path n, content n, extra n).

(** What renaming does to the scalars of one node. *)
Definition retarget (target newName : string) (n : FileNode) : FileNode :=
  if String.eqb (path n) target
  then with_name_path n newName (renamed_path target newName)
  else n.

(** With unique paths, the nodes keep their order and their scalars, but
    for the name and the path of the node at [target]. *)
Definition rescalars (target newName : string) (t : Tree) : Prop :=
  NoDup (all_paths t) ->
  map scalars (all_nodes (renameInTree target newName t)) =
  map (fun n => scalars (retarget target newName n)) (all_nodes t).

(** No ['/'] occurs in the string. *)
Fixpoint slash_free (s : string) : bool :=
  match s with
  | EmptyString => true
  | String c rest => negb (Ascii.eqb c slash) && slash_free rest
  end.

(** Everything in front of the last segment, with its closing slashes. *)
Definition dir_of (parts : list string) : string :=
  fold_right (fun seg acc => (seg ++ String slash acc)%string) EmptyString
    (removelast parts).

(** [p] is a directory above [q]: [q] starts with [p] and a slash. *)
Definition dir_prefix (p q : string) : bool :=
  String.prefix (p ++ String slash EmptyString)%string q.

(** Renaming a folder as the claim puts it: every node below the folder is
    still there as it was, and its path is no longer below the folder's new
    path. *)
Definition rename_leaves_descendants_behind
    (target newName : string) (tree : Tree) : Prop :=
  forall f d,
    In f (all_nodes tree) -> path f = target -> type f = Folder ->
    In d (descendants f) ->
    In d (all_nodes (renameInTree target newName tree)) /\
    dir_prefix (renamed_path target newName) (path d) = false.

(** With unique paths, looking up the path of a file of the tree finds that
    very file. *)
Definition finds_unique (t : Tree) : Prop :=
  forall n,
    NoDup (all_paths t) -> In n (all_nodes t) -> type n = File ->
    findFileByPath t (path n) = Some n.

(** With unique paths, the node at [target] is found again with the new
    content and everything else as it was. *)
Definition updates_node (target newCode : string) (t : Tree) : Prop :=
  forall n,
    NoDup (all_paths t) -> In n (all_nodes t) -> path n = target ->
    In (with_content n (Some newCode))
       (all_nodes (updateFileContent target newCode t)).

(** The deletion as the claim puts it, for every tree: no path of a node
    below a folder at [target] is found once [target] has been deleted. *)
Definition removes_descendant_lookups (target : string) (tree : Tree) : Prop :=
  forall f d,
    In f (all_nodes tree) -> path f = target -> type f = Folder ->
    In d (descendants f) ->
    findFileByPath (deleteFromTree target tree) (path d) = None.


(** No node at [target] lies below another node at [target]. *)
Definition unnested (target : string) (t : Tree) : Prop :=
  forall f d,
    In f (all_nodes t) -> path f = target -> In d (descendants f) ->
    path d <> target.


(** The rebinding effect as the claim puts it: a current file whose path
    finds no file in the tree is dropped. *)
Definition reconcile_clears_missing (tree : Tree) (cur : FileNode) : Prop :=
  findFileByPath tree (path cur) = None -> reconcile tree (Some cur) = None.

(** What a run of edits leaves behind. *)
Definition settled_burst (pid : string) (w : list WriteReq) (s : State) : Prop :=
  single_timer s /\ projectId s = Some pid /\ writes s = w /\
  exists t, timers s = armed (Some pid) (files s) (clock s) t.

(** Two states agree on everything that decides the requests to come. *)
Definition same_schedule (s1 s2 : State) : Prop :=
  timers s1 = timers s2 /\ clock s1 = clock s2 /\ writes s1 = writes s2.

(** The debounce as the claim puts it: after a run of edits and a pause,
    one more request has been sent, and it carries the sanitized tree of
    the last edit. *)
Definition one_write_per_burst
    (s : State) (e : Event) (b : list (nat * Event)) (q : nat) : Prop :=
  let s' := burst b (handle e s) in
  exists w,
    writes (advance q s') = writes s ++ [w] /\
    w_payload w = sanitizeFileTree (files s').

(* ================================================================== *)
(** ** Tests on nodes used by the further properties *)

(** [node.type === 'file']. *)
Definition is_file (n : FileNode) : bool := NodeType_eqb (type n) File.

(** [node.path === targetPath && node.type === 'file']. *)
Definition file_at (q : string) (n : FileNode) : bool :=
  (String.eqb (path n) q && is_file n)%bool.

(** [node.path === parentPath && node.type === 'folder']. *)
Definition folder_at (q : string) (n : FileNode) : bool :=
  (String.eqb (path n) q && NodeType_eqb (type n) Folder)%bool.

(** The properties of a node that editing its content leaves alone. *)
Definition frame (n : FileNode)
  : string * string * NodeType * string * list (string * string) :=
  (id n, name n, type n, path n, extra n).

(** No file node of the tree has [children]. *)
Definition files_are_leaves (t : Tree) : Prop :=
  forall n, In n (all_nodes t) -> type n = File -> children n = None.

(** The nodes that [deleteFromTree] is after: the nodes at [target] and
    everything below them. *)
Definition doomed (target : string) (t : Tree) : list FileNode :=
  flat_map subtree (filter (fun n => String.eqb (path n) target) (all_nodes t)).

(** Some folder of the tree has the path. *)
Definition has_folder (parentPath : string) (t : Tree) : bool :=
  existsb (folder_at parentPath) (all_nodes t).

(** [addToTree] finds a place for the new node: the root, or a folder. *)
Definition resolves (parentPath : string) (t : Tree) : bool :=
  (String.eqb parentPath "/" || has_folder parentPath t)%bool.

(** Deleting keeps the nodes it is not after. *)
Definition spares (target : string) (t : Tree) : Prop :=
  forall n, In n (all_nodes t) -> ~ In n (doomed target t) ->
            In (path n) (all_paths (deleteFromTree target t)).

(** What renaming does to a path of the tree. *)
Definition retarget_path (target newPath q : string) : string :=
  if String.eqb q target then newPath else q.

(* ================================================================== *)
(** ** Start-up *)

(** How the [GET /api/projects/{id}] of the start-up effect ends: a response
    whose [ok] is true, with the [id] and the [files] of its body; a
    response whose [ok] is false; or an exception ([fetch] or [res.json()]
    rejects). *)
Inductive GetOutcome : Type :=
| GetOk (data_id : string) (data_files : option Tree)
| GetNotOk
| GetFails.

(** The same for the [POST /api/projects] that creates a project. *)
Inductive PostOutcome : Type :=
| PostOk (created_id : string)
| PostNotOk
| PostFails.

Inductive Request : Type :=
| ReqGet (id : string)
| ReqPost (template : Tree).

(** What the start-up effect does: the requests it sends, the identifier it
    writes under [rn-project-id] in the local storage, if any, and the tree
    it installs, if any, as an event of the component. *)
Record Boot : Type := mkBoot {
  b_requests : list Request;
  b_stored : option string;
  b_event : option Event
}.

(** The [catch] branch of [init]: the template, no identifier.  The branch
    does not look at [cancelled]. *)
Definition init_fallback (reqs : list Request) (template : Tree) : Boot :=
  mkBoot reqs None (Some (Seed None template)).

(** The second half of [init]: create a project from the template. *)
Definition init_create (reqs : list Request) (post : PostOutcome)
    (cancelled : bool) (template : Tree) : Boot :=
  match post with
  | PostOk created_id =>
      if cancelled then mkBoot (reqs ++ [ReqPost template]) None None
      else mkBoot (reqs ++ [ReqPost template]) (Some created_id)
             (Some (Seed (Some created_id) template))
  | PostNotOk | PostFails => init_fallback (reqs ++ [ReqPost template]) template
  end.

(** [init] of the start-up effect.  [existingId] is what the local storage
    holds, [template] what [generateReactNativeTemplate] (of
    [../utils/templates], outside the sources at hand) returns, [cancelled]
    the flag of the effect at the moment [init] looks at it. *)
Definition init (existingId : option string) (get : GetOutcome)
    (post : PostOutcome) (cancelled : bool) (template : Tree) : Boot :=
  match existingId with
  | Some id =>
      if falsy id then init_create [] post cancelled template
      else match get with
           | GetOk data_id data_files =>
               mkBoot [ReqGet id] None
                 (if cancelled then None
                  else Some (Seed (Some data_id) (nullish data_files [])))
           | GetNotOk => init_create [ReqGet id] post cancelled template
           | GetFails => init_fallback [ReqGet id] template
           end
  | None => init_create [] post cancelled template
  end.

(** The component once [init] has run. *)
Definition booted (b : Boot) : State :=
  match b_event b with
  | Some e => handle e initial
  | None => initial
  end.

Definition is_post (r : Request) : bool :=
  match r with ReqPost _ => true | ReqGet _ => false end.

(** The request that follows a start-up, if any. *)
Definition first_write (s : State) : list WriteReq :=
  match projectId s with
  | None => []
  | Some pid =>
      if falsy pid then []
      else when_nonempty (files s)
             [mkWrite quiet_period pid (sanitizeFileTree (files s))]
  end.

(* ================================================================== *)
(** ** Predicates on requests *)

(** The event binds a project identifier. *)
Definition binds (e : Event) : bool :=
  match e with
  | Seed (Some _) _ => true
  | _ => false
  end.

(** Each request comes at least a quiet period after every earlier one. *)
Fixpoint spaced (ws : list WriteReq) : Prop :=
  match ws with
  | [] => True
  | w :: rest =>
      (forall w', In w' rest -> w_time w + quiet_period <= w_time w') /\
      spaced rest
  end.

(** The requests sent so far are spaced, none is in the future, and a
    pending timer is due at least a quiet period after each of them. *)
Definition paced (s : State) : Prop :=
  spaced (writes s) /\
  (forall w, In w (writes s) -> w_time w <= clock s) /\
  (forall e w, In e (timers s) -> In w (writes s) ->
               w_time w + quiet_period <= due (snd e)).

(** The request goes to an identifier that is not empty and carries a tree
    in sanitized form. *)
Definition well_addressed (w : WriteReq) : Prop :=
  falsy (w_projectId w) = false /\
  sanitizeFileTree (w_payload w) = w_payload w.

(* ================================================================== *)
(** * Properties *)

(** ** The operations on the sample project *)

Example split_slash_nested :
  split_slash "/src/App.tsx" = [""; "src"; "App.tsx"].
Proof. reflexivity. Qed.

Example renamed_path_nested :
  renamed_path "/src/App.tsx" "Main.tsx" = "/src/Main.tsx".
Proof. reflexivity. Qed.

Example renamed_path_no_slash : renamed_path "notes" "todo" = "todo".
Proof. reflexivity. Qed.

Example findFirstFile_enters_folders : findFirstFile src_project = Some a_txt.
Proof. reflexivity. Qed.

Example findFileByPath_skips_folders :
  findFileByPath src_project "/src" = None /\
  findFileByPath src_project "/src/a.txt" = Some a_txt.
Proof. split; reflexivity. Qed.

Example addToTree_into_folder :
  addToTree "/src" (newNode "9" "/src" "b.txt" File) [src_folder] =
  [folder_node "1" "src" "/src" [a_txt; file_node "9" "b.txt" "/src/b.txt" ""]].
Proof. reflexivity. Qed.

Example addToTree_at_root :
  addToTree "/" (newNode "9" "/" "lib" Folder) [src_folder] =
  [src_folder; folder_node "9" "lib" "/lib" []].
Proof. reflexivity. Qed.

Example deleteFromTree_folder :
  deleteFromTree "/src" src_project =
  [mkNode "3" "App.tsx" File "/App.tsx" None None
     [("_id", "65f0c1"); ("updatedAt", "2024-03-12")]].
Proof. reflexivity. Qed.

Example renameInTree_folder :
  renameInTree "/src" "lib" [src_folder] = [folder_node "1" "lib" "/lib" [a_txt]].
Proof. reflexivity. Qed.

Example sanitizeFileTree_sample :
  sanitizeFileTree src_project =
  [src_folder; file_node "3" "App.tsx" "/App.tsx" ""].
Proof. reflexivity. Qed.

Example http_status_404 : http_status 404 = "HTTP 404".
Proof. reflexivity. Qed.

(** The first write of a loaded project leaves 1200 ms after the load and
    carries the sanitized tree. *)
Example first_write_after_quiet_period :
  writes (advance 1199 src_loaded) = [] /\
  writes src_writing = [mkWrite 1200 "p1" [src_folder]].
Proof. split; vm_compute; reflexivity. Qed.

(** ** Lists, options and strings *)

Lemma filter_map_spec {A B : Type} (keep : A -> bool) (f : A -> B) (l : list A) :
  filter_map keep f l = map f (filter keep l).
Proof.
  induction l as [|x l IH]; simpl; [reflexivity|].
  destruct (keep x); simpl; now rewrite IH.
Qed.

Lemma Tree_Forall (P : FileNode -> Prop) :
  (forall i n t p c e, P (mkNode i n t p c None e)) ->
  (forall i n t p c cs e, Forall P cs -> P (mkNode i n t p c (Some cs) e)) ->
  forall t : Tree, Forall P t.
Proof.
  intros Hl Hi t. induction t; constructor; [apply FileNode_ind|]; assumption.
Qed.

(** ** Nodes of a tree *)

Lemma subtree_unfold (n : FileNode) : subtree n = n :: descendants n.
Proof. destruct n as [i nm t p c [cs|] e]; reflexivity. Qed.

Lemma in_all_nodes (x : FileNode) (t : Tree) :
  In x (all_nodes t) <-> exists n, In n t /\ In x (subtree n).
Proof. unfold all_nodes. apply in_flat_map. Qed.

Lemma in_subtree_self (n : FileNode) : In n (subtree n).
Proof. rewrite subtree_unfold. now left. Qed.

Lemma in_subtree_child (n c x : FileNode) (cs : list FileNode) :
  children n = Some cs -> In c cs -> In x (subtree c) -> In x (subtree n).
Proof.
  intros Hc Hin Hx. rewrite subtree_unfold. right.
  unfold descendants. rewrite Hc. apply in_all_nodes. eauto.
Qed.

Lemma all_nodes_cons (n : FileNode) (t : Tree) :
  all_nodes (n :: t) = n :: descendants n ++ all_nodes t.
Proof. unfold all_nodes. simpl. now rewrite subtree_unfold. Qed.

(** Descendants of a descendant are descendants. *)
Lemma subtree_trans (x y z : FileNode) :
  In y (subtree x) -> In z (subtree y) -> In z (subtree x).
Proof.
  revert y z. induction x as [i n t p c e | i n t p c cs e IH] using FileNode_ind;
    intros y z Hy Hz.
  - simpl in Hy. destruct Hy as [<-|[]]. exact Hz.
  - simpl in Hy. destruct Hy as [<-|Hy]; [exact Hz|].
    simpl. right. apply in_flat_map in Hy. destruct Hy as (c0 & Hc0 & Hy).
    apply in_flat_map. exists c0. split; [assumption|].
    rewrite Forall_forall in IH. eapply IH; eauto.
Qed.

Lemma descendants_in_subtree (n d : FileNode) :
  In d (descendants n) -> In d (subtree n).
Proof. rewrite subtree_unfold. now right. Qed.

Lemma descendants_all_nodes (t : Tree) (n d : FileNode) :
  In n (all_nodes t) -> In d (descendants n) -> In d (all_nodes t).
Proof.
  intros Hn Hd. apply in_all_nodes in Hn. destruct Hn as (r & Hr & Hn).
  apply in_all_nodes. exists r. split; [assumption|].
  eapply subtree_trans; eauto using descendants_in_subtree.
Qed.

(* ------------------------------------------------------------------ *)
(** ** [sanitizeFileTree] *)

Lemma sanitize_node_shape (n : FileNode) :
  id (sanitize_node n) = id n /\ name (sanitize_node n) = name n /\
  type (sanitize_node n) = type n /\ path (sanitize_node n) = path n /\
  extra (sanitize_node n) = [] /\
  match type n with
  | File =>
      content (sanitize_node n) = Some (nullish (content n) EmptyString) /\
      children (sanitize_node n) = None
  | Folder =>
      content (sanitize_node n) = None /\
      children (sanitize_node n) = Some (sanitizeFileTree (nullish (children n) []))
  end.
Proof.
  destruct n as [i nm t p c [cs|] e]; destruct t; simpl; auto 10.
Qed.

Lemma sanitized_nodes_come_from (n s : FileNode) :
  In s (subtree (sanitize_node n)) ->
  exists m, In m (subtree n) /\ s = sanitize_node m.
Proof.
  revert s. induction n as [i nm t p c e | i nm t p c cs e IH] using FileNode_ind;
    intros s Hs.
  - exists (mkNode i nm t p c None e). split; [apply in_subtree_self|].
    destruct t; simpl in Hs; destruct Hs as [<-|[]]; reflexivity.
  - destruct t; simpl in Hs.
    + destruct Hs as [<-|[]]. eexists. split; [apply in_subtree_self|reflexivity].
    + destruct Hs as [<-|Hs].
      * eexists. split; [apply in_subtree_self|reflexivity].
      * apply in_flat_map in Hs. destruct Hs as (c' & Hc' & Hs).
        apply in_map_iff in Hc'. destruct Hc' as (c0 & <- & Hc0).
        rewrite Forall_forall in IH. destruct (IH c0 Hc0 s Hs) as (m & Hm & ->).
        exists m. split; [|reflexivity].
        apply in_subtree_child with (c := c0) (cs := cs); [reflexivity| |]; assumption.
Qed.

(** C6. Every node of [sanitizeFileTree tree] is the image of a node of
    [tree] and carries that node's [id], [name], [type] and [path], no
    further property, and: for a file, [content] (the original one, or the
    empty string when it was undefined) and no [children]; for a folder,
    [children] (the sanitized original ones, or the empty array when they
    were undefined) and no [content]. *)
Theorem sanitize_keeps_only_persisted_fields (tree : Tree) (s : FileNode) :
  In s (all_nodes (sanitizeFileTree tree)) ->
  exists n,
    In n (all_nodes tree) /\
    id s = id n /\ name s = name n /\ type s = type n /\ path s = path n /\
    extra s = [] /\
    match type n with
    | File =>
        content s = Some (nullish (content n) EmptyString) /\
        children s = None
    | Folder =>
        content s = None /\
        children s = Some (sanitizeFileTree (nullish (children n) []))
    end.
Proof.
  intros Hs. apply in_all_nodes in Hs. destruct Hs as (r & Hr & Hs).
  unfold sanitizeFileTree in Hr. apply in_map_iff in Hr.
  destruct Hr as (r0 & <- & Hr0).
  destruct (sanitized_nodes_come_from _ _ Hs) as (m & Hm & ->).
  exists m. split.
  - apply in_all_nodes. eauto.
  - apply sanitize_node_shape.
Qed.

(* ------------------------------------------------------------------ *)
(** ** [addToTree] *)

Lemma map_id_on {A : Type} (f : A -> A) (l : list A) :
  (forall x, In x l -> f x = x) -> map f l = l.
Proof.
  induction l as [|x l IH]; simpl; intros H; [reflexivity|].
  rewrite H by now left. rewrite IH; [reflexivity|]. intros y Hy. apply H. now right.
Qed.

Lemma NodeType_eqb_eq (a b : NodeType) : NodeType_eqb a b = true <-> a = b.
Proof. destruct a, b; simpl; split; congruence. Qed.

Lemma addToTree_node_noop (parentPath : string) (new n : FileNode) :
  parentPath <> "/" ->
  (forall m, In m (subtree n) -> path m = parentPath -> type m <> Folder) ->
  addToTree_node parentPath new n = n.
Proof.
  intros Hroot.
  induction n as [i nm t p c e | i nm t p c cs e IH] using FileNode_ind; intros H.
  - simpl. destruct (String.eqb p parentPath && NodeType_eqb t Folder)%bool eqn:E;
      [|reflexivity].
    apply andb_true_iff in E. destruct E as [E1 E2].
    apply String.eqb_eq in E1. apply NodeType_eqb_eq in E2.
    exfalso. apply (H _ (in_subtree_self _)); assumption.
  - simpl. destruct (String.eqb p parentPath && NodeType_eqb t Folder)%bool eqn:E.
    + apply andb_true_iff in E. destruct E as [E1 E2].
      apply String.eqb_eq in E1. apply NodeType_eqb_eq in E2.
      exfalso. apply (H _ (in_subtree_self _)); assumption.
    + apply String.eqb_neq in Hroot. rewrite Hroot.
      f_equal. f_equal. apply map_id_on. intros x Hx.
      rewrite Forall_forall in IH. apply IH; [assumption|].
      intros m Hm. apply H.
      apply in_subtree_child with (c := x) (cs := cs); [reflexivity| |]; assumption.
Qed.

(** C7. When [parentPath] is not the root ["/"] and no folder of the tree
    has that path, [addToTree] gives back a tree equal to its input. *)
Theorem addToTree_unknown_parent_is_noop
    (parentPath : string) (new : FileNode) (tree : Tree) :
  parentPath <> "/" ->
  (forall n, In n (all_nodes tree) -> path n = parentPath -> type n <> Folder) ->
  addToTree parentPath new tree = tree.
Proof.
  intros Hroot H. unfold addToTree.
  apply String.eqb_neq in Hroot as Hb. rewrite Hb.
  apply map_id_on. intros x Hx. apply addToTree_node_noop; [assumption|].
  intros m Hm. apply H. apply in_all_nodes. eauto.
Qed.

(* ------------------------------------------------------------------ *)
(** ** Paths *)

Lemma all_paths_cons (n : FileNode) (t : Tree) :
  all_paths (n :: t) = path n :: map path (descendants n) ++ all_paths t.
Proof. unfold all_paths. rewrite all_nodes_cons. simpl. now rewrite map_app. Qed.

Lemma NoDup_app_inv {A : Type} (l1 l2 : list A) :
  NoDup (l1 ++ l2) ->
  NoDup l1 /\ NoDup l2 /\ forall x, In x l1 -> ~ In x l2.
Proof.
  induction l1 as [|a l1 IH]; simpl; intros H.
  - repeat split; [constructor|assumption|tauto].
  - inversion H as [|? ? Hn Hd]; subst.
    destruct (IH Hd) as (H1 & H2 & H3).
    repeat split; [|assumption|].
    + constructor; [|assumption]. intros Hin. apply Hn. apply in_or_app. now left.
    + intros x [<-|Hx] Hx2; [|now apply (H3 x)].
      apply Hn. apply in_or_app. now right.
Qed.

Lemma NoDup_all_paths_cons (n : FileNode) (t : Tree) :
  NoDup (all_paths (n :: t)) ->
  ~ In (path n) (map path (descendants n)) /\
  ~ In (path n) (all_paths t) /\
  NoDup (map path (descendants n)) /\
  NoDup (all_paths t) /\
  forall q, In q (map path (descendants n)) -> ~ In q (all_paths t).
Proof.
  rewrite all_paths_cons. intros H. inversion H as [|? ? Hn Hd]; subst.
  destruct (NoDup_app_inv _ _ Hd) as (H1 & H2 & H3).
  repeat split; try assumption.
  - intros Hin. apply Hn. apply in_or_app. now left.
  - intros Hin. apply Hn. apply in_or_app. now right.
Qed.

Lemma in_all_paths (q : string) (t : Tree) :
  In q (all_paths t) <-> exists n, In n (all_nodes t) /\ path n = q.
Proof.
  unfold all_paths. rewrite in_map_iff. split; intros (n & H1 & H2); eauto.
Qed.

Lemma first_some_Some {A B : Type} (f : A -> option B) (l : list A) (r : B) :
  first_some f l = Some r -> exists x, In x l /\ f x = Some r.
Proof.
  induction l as [|x l IH]; simpl; [discriminate|].
  destruct (f x) eqn:E.
  - intros [= <-]. eauto.
  - intros H. destruct (IH H) as (y & Hy & Hf). eauto.
Qed.

(** A successful lookup returns a file of the tree with the path asked
    for. *)
Lemma findFileByPath_node_Some (q : string) (n x : FileNode) :
  findFileByPath_node q n = Some x ->
  In x (subtree n) /\ path x = q /\ type x = File.
Proof.
  revert x. induction n as [i nm t p c e | i nm t p c cs e IH] using FileNode_ind;
    intros x; simpl;
    destruct (String.eqb p q && NodeType_eqb t File)%bool eqn:E.
  - intros [= <-]. apply andb_true_iff in E. destruct E as [E1 E2].
    apply String.eqb_eq in E1. apply NodeType_eqb_eq in E2. auto.
  - discriminate.
  - intros [= <-]. apply andb_true_iff in E. destruct E as [E1 E2].
    apply String.eqb_eq in E1. apply NodeType_eqb_eq in E2. auto.
  - intros H. apply first_some_Some in H. destruct H as (y & Hy & Hf).
    rewrite Forall_forall in IH. destruct (IH y Hy x Hf) as (H1 & H2 & H3).
    split; [|split; assumption].
    right. apply in_flat_map. eauto.
Qed.

Lemma findFileByPath_Some (t : Tree) (q : string) (x : FileNode) :
  findFileByPath t q = Some x ->
  In x (all_nodes t) /\ path x = q /\ type x = File.
Proof.
  unfold findFileByPath. intros H. apply first_some_Some in H.
  destruct H as (y & Hy & Hf). apply findFileByPath_node_Some in Hf.
  destruct Hf as (H1 & H2 & H3). repeat split; try assumption.
  apply in_all_nodes. eauto.
Qed.

Lemma findFileByPath_absent (t : Tree) (q : string) :
  ~ In q (all_paths t) -> findFileByPath t q = None.
Proof.
  intros H. destruct (findFileByPath t q) as [x|] eqn:E; [|reflexivity].
  apply findFileByPath_Some in E. destruct E as (H1 & H2 & _).
  exfalso. apply H. apply in_all_paths. eauto.
Qed.

(* ------------------------------------------------------------------ *)
(** ** [deleteFromTree] *)

Lemma deleteFromTree_cons (target : string) (n : FileNode) (t : Tree) :
  deleteFromTree target (n :: t) =
  if survives target n
  then deleteFromTree_node target n :: deleteFromTree target t
  else deleteFromTree target t.
Proof. reflexivity. Qed.

Lemma deleteFromTree_node_path (target : string) (n : FileNode) :
  path (deleteFromTree_node target n) = path n.
Proof. destruct n as [i nm t p c [cs|] e]; reflexivity. Qed.

Lemma deleteFromTree_node_descendants (target : string) (n : FileNode) :
  descendants (deleteFromTree_node target n) =
  all_nodes (deleteFromTree target (nullish (children n) [])).
Proof. destruct n as [i nm t p c [cs|] e]; reflexivity. Qed.

Lemma descendants_nullish (n : FileNode) :
  descendants n = all_nodes (nullish (children n) []).
Proof. destruct n as [i nm t p c [cs|] e]; reflexivity. Qed.

(** Deleting never brings in a path that was not there. *)
Lemma deleteFromTree_paths_incl_step (target : string) (t : Tree) :
  Forall (fun n => forall q,
            In q (all_paths (deleteFromTree target (kids n))) ->
            In q (all_paths (kids n))) t ->
  forall q, In q (all_paths (deleteFromTree target t)) -> In q (all_paths t).
Proof.
  intros IH. induction t as [|x t IHt]; intros q Hq; [assumption|].
  inversion IH as [|? ? Hx Ht]; subst.
  rewrite deleteFromTree_cons in Hq. rewrite all_paths_cons.
  destruct (survives target x).
  - rewrite all_paths_cons in Hq. rewrite deleteFromTree_node_path in Hq.
    rewrite deleteFromTree_node_descendants in Hq.
    destruct Hq as [Hq|Hq]; [now left|]. right.
    apply in_app_or in Hq. apply in_or_app. destruct Hq as [Hq|Hq].
    + left. rewrite descendants_nullish. now apply Hx.
    + right. now apply IHt.
  - right. apply in_or_app. right. now apply IHt.
Qed.

Lemma deleteFromTree_paths_incl (target : string) (t : Tree) (q : string) :
  In q (all_paths (deleteFromTree target t)) -> In q (all_paths t).
Proof.
  revert q. apply deleteFromTree_paths_incl_step. apply Tree_Forall.
  - intros; assumption.
  - intros i nm ty p c cs e IH. now apply deleteFromTree_paths_incl_step.
Qed.

Lemma survives_false (target : string) (n : FileNode) :
  survives target n = false <-> path n = target.
Proof.
  unfold survives. rewrite negb_false_iff. apply String.eqb_eq.
Qed.

Lemma cascades_step (target : string) (t : Tree) :
  Forall (fun n => cascades target (kids n)) t -> cascades target t.
Proof.
  intros IH. induction t as [|x t IHt]; [intros f d _ []|].
  inversion IH as [|x0 t0 Hx Ht]; subst x0 t0.
  intros f d Hnd Hf Hp Hd.
  destruct (NoDup_all_paths_cons _ _ Hnd) as (N1 & N2 & N3 & N4 & N5).
  rewrite all_nodes_cons in Hf. rewrite deleteFromTree_cons.
  destruct Hf as [<-|Hf]; [|apply in_app_or in Hf; destruct Hf as [Hf|Hf]].
  - (* the node itself is the one deleted *)
    apply survives_false in Hp. rewrite Hp.
    intros Hin. apply deleteFromTree_paths_incl in Hin.
    apply (N5 (path d)); [now apply in_map|assumption].
  - (* the deleted node lies below [x] *)
    assert (Hxp : path x <> target).
    { intros E. apply N1. rewrite E, <- Hp. now apply in_map. }
    assert (Hdx : In d (descendants x)).
    { rewrite (descendants_nullish x) in *.
      now apply descendants_all_nodes with (n := f). }
    destruct (survives target x) eqn:Es;
      [|apply survives_false in Es; contradiction].
    rewrite all_paths_cons, deleteFromTree_node_path,
      deleteFromTree_node_descendants.
    intros [Hin|Hin].
    + apply N1. rewrite Hin. now apply in_map.
    + apply in_app_or in Hin. destruct Hin as [Hin|Hin].
      * revert Hin. apply (Hx f d); try assumption.
        -- rewrite descendants_nullish in N3. exact N3.
        -- rewrite descendants_nullish in Hf. exact Hf.
      * apply deleteFromTree_paths_incl in Hin.
        apply (N5 (path d)); [now apply in_map|assumption].
  - (* the deleted node lies in a later sibling *)
    assert (Hdt : In (path d) (all_paths t)).
    { apply in_map. now apply descendants_all_nodes with (n := f). }
    assert (Hrest : ~ In (path d) (all_paths (deleteFromTree target t))).
    { apply (IHt Ht f d); assumption. }
    destruct (survives target x); [|assumption].
    rewrite all_paths_cons, deleteFromTree_node_path,
      deleteFromTree_node_descendants.
    intros [Hin|Hin].
    + apply N2. now rewrite Hin.
    + apply in_app_or in Hin. destruct Hin as [Hin|Hin]; [|contradiction].
      apply deleteFromTree_paths_incl in Hin.
      apply (N5 (path d)); [|assumption].
      rewrite descendants_nullish. exact Hin.
Qed.

Lemma deleteFromTree_cascades (target : string) (t : Tree) : cascades target t.
Proof.
  apply cascades_step. apply Tree_Forall.
  - intros i nm ty p c e f d _ [].
  - intros i nm ty p c cs e IH. now apply cascades_step.
Qed.

(** Whatever the tree, no node at [target] is left. *)
Lemma deleteFromTree_target_gone_step (target : string) (t : Tree) :
  Forall (fun n => ~ In target (all_paths (deleteFromTree target (kids n)))) t ->
  ~ In target (all_paths (deleteFromTree target t)).
Proof.
  intros IH. induction t as [|x t IHt]; [intros []|].
  inversion IH as [|x0 t0 Hx Ht]; subst x0 t0.
  rewrite deleteFromTree_cons. destruct (survives target x) eqn:Es; [|auto].
  rewrite all_paths_cons, deleteFromTree_node_path,
    deleteFromTree_node_descendants.
  intros [Hin|Hin].
  - apply survives_false in Hin. congruence.
  - apply in_app_or in Hin. destruct Hin as [Hin|Hin]; [now apply Hx|now apply IHt].
Qed.

Lemma deleteFromTree_target_gone (target : string) (t : Tree) :
  ~ In target (all_paths (deleteFromTree target t)).
Proof.
  apply deleteFromTree_target_gone_step. apply Tree_Forall.
  - intros i nm ty p c e [].
  - intros i nm ty p c cs e IH. now apply deleteFromTree_target_gone_step.
Qed.

(** C5. In a tree whose paths are unique, once the folder at [target] has
    been deleted no path of a node that was below it is found by
    [findFileByPath], and no node of the tree carries such a path any
    more. *)
Theorem deleteFromTree_removes_subtree
    (target : string) (tree : Tree) (f d : FileNode) :
  NoDup (all_paths tree) ->
  In f (all_nodes tree) -> path f = target -> type f = Folder ->
  In d (descendants f) ->
  findFileByPath (deleteFromTree target tree) (path d) = None /\
  ~ In (path d) (all_paths (deleteFromTree target tree)) /\
  ~ In target (all_paths (deleteFromTree target tree)).
Proof.
  intros Hnd Hf Hp _ Hd.
  assert (H : ~ In (path d) (all_paths (deleteFromTree target tree))).
  { now apply (deleteFromTree_cascades target tree f d). }
  split; [now apply findFileByPath_absent|]. split; [assumption|].
  apply deleteFromTree_target_gone.
Qed.

(* ------------------------------------------------------------------ *)
(** ** [renameInTree] *)

Lemma renameInTree_node_hit (target newName : string) (n : FileNode) :
  path n = target ->
  renameInTree_node target newName n =
  with_name_path n newName (renamed_path target newName).
Proof.
  intros H. apply String.eqb_eq in H.
  destruct n as [i nm t p c [cs|] e]; simpl in *; now rewrite H.
Qed.

Lemma renameInTree_node_miss (target newName : string) (n : FileNode) :
  path n <> target ->
  renameInTree_node target newName n =
  with_children n (option_map (renameInTree target newName) (children n)).
Proof.
  intros H. apply String.eqb_neq in H.
  destruct n as [i nm t p c [cs|] e]; simpl in *; now rewrite H.
Qed.

Lemma descendants_with_name_path (n : FileNode) (nm p : string) :
  descendants (with_name_path n nm p) = descendants n.
Proof. reflexivity. Qed.

Lemma descendants_with_children_map (n : FileNode) (f : Tree -> Tree) :
  f [] = [] ->
  descendants (with_children n (option_map f (children n))) =
  all_nodes (f (kids n)).
Proof.
  intros Hf. destruct n as [i nm t p c [cs|] e]; unfold kids; simpl;
    [reflexivity|now rewrite Hf].
Qed.

Lemma keeps_descendants_step (target newName : string) (t : Tree) :
  Forall (fun n => keeps_descendants target newName (kids n)) t ->
  keeps_descendants target newName t.
Proof.
  intros IH. induction t as [|x t IHt]; [intros f d []|].
  inversion IH as [|x0 t0 Hx Ht]; subst x0 t0.
  intros f d Hf Hp Hd.
  rewrite all_nodes_cons in Hf.
  change (renameInTree target newName (x :: t))
    with (renameInTree_node target newName x :: renameInTree target newName t).
  rewrite all_nodes_cons.
  destruct Hf as [<-|Hf]; [|apply in_app_or in Hf; destruct Hf as [Hf|Hf]].
  - rewrite renameInTree_node_hit by assumption.
    right. apply in_or_app. left. exact Hd.
  - right. apply in_or_app. left.
    destruct (string_dec (path x) target) as [E|E].
    + rewrite renameInTree_node_hit by assumption.
      rewrite descendants_with_name_path, descendants_nullish.
      rewrite descendants_nullish in Hf.
      now apply descendants_all_nodes with (n := f).
    + rewrite renameInTree_node_miss by assumption.
      rewrite descendants_with_children_map by reflexivity.
      rewrite descendants_nullish in Hf. now apply (Hx f d).
  - right. apply in_or_app. right. now apply (IHt Ht f d).
Qed.

Lemma renameInTree_keeps_descendants (target newName : string) (t : Tree) :
  keeps_descendants target newName t.
Proof.
  apply keeps_descendants_step. apply Tree_Forall.
  - intros i nm ty p c e f d [].
  - intros i nm ty p c cs e IH. now apply keeps_descendants_step.
Qed.

Lemma renames_node_step (target newName : string) (t : Tree) :
  Forall (fun n => renames_node target newName (kids n)) t ->
  renames_node target newName t.
Proof.
  intros IH. induction t as [|x t IHt]; [intros f _ []|].
  inversion IH as [|x0 t0 Hx Ht]; subst x0 t0.
  intros f Hnd Hf Hp.
  destruct (NoDup_all_paths_cons _ _ Hnd) as (N1 & N2 & N3 & N4 & N5).
  rewrite all_nodes_cons in Hf.
  change (renameInTree target newName (x :: t))
    with (renameInTree_node target newName x :: renameInTree target newName t).
  rewrite all_nodes_cons.
  destruct Hf as [<-|Hf]; [|apply in_app_or in Hf; destruct Hf as [Hf|Hf]].
  - rewrite renameInTree_node_hit by assumption. now left.
  - right. apply in_or_app. left.
    assert (E : path x <> target).
    { intros E. apply N1. rewrite E, <- Hp. now apply in_map. }
    rewrite renameInTree_node_miss by assumption.
    rewrite descendants_with_children_map by reflexivity.
    rewrite descendants_nullish in Hf, N3. now apply (Hx f).
  - right. apply in_or_app. right. now apply (IHt Ht f).
Qed.

Lemma renameInTree_renames_node (target newName : string) (t : Tree) :
  renames_node target newName t.
Proof.
  apply renames_node_step. apply Tree_Forall.
  - intros i nm ty p c e f _ [].
  - intros i nm ty p c cs e IH. now apply renames_node_step.
Qed.

Lemma all_nodes_cons_scalars (n : FileNode) (t : Tree) :
  map scalars (all_nodes (n :: t)) =
  scalars n :: map scalars (descendants n) ++ map scalars (all_nodes t).
Proof. rewrite all_nodes_cons. simpl. now rewrite map_app. Qed.

Lemma map_retarget_absent (target newName : string) (l : list FileNode) :
  ~ In target (map path l) ->
  map (fun n => scalars (retarget target newName n)) l = map scalars l.
Proof.
  intros H. apply map_ext_in. intros n Hn. unfold retarget.
  destruct (String.eqb (path n) target) eqn:E; [|reflexivity].
  apply String.eqb_eq in E. exfalso. apply H. rewrite <- E. now apply in_map.
Qed.

Lemma rescalars_step (target newName : string) (t : Tree) :
  Forall (fun n => rescalars target newName (kids n)) t ->
  rescalars target newName t.
Proof.
  intros IH. induction t as [|x t IHt]; [intros _; reflexivity|].
  inversion IH as [|x0 t0 Hx Ht]; subst x0 t0.
  intros Hnd.
  destruct (NoDup_all_paths_cons _ _ Hnd) as (N1 & N2 & N3 & N4 & N5).
  change (renameInTree target newName (x :: t))
    with (renameInTree_node target newName x :: renameInTree target newName t).
  rewrite all_nodes_cons_scalars, (IHt Ht N4).
  rewrite all_nodes_cons. simpl. rewrite map_app. f_equal.
  - unfold retarget. destruct (string_dec (path x) target) as [E|E].
    + rewrite renameInTree_node_hit by assumption.
      apply String.eqb_eq in E. now rewrite E.
    + rewrite renameInTree_node_miss by assumption.
      apply String.eqb_neq in E. now rewrite E.
  - f_equal. destruct (string_dec (path x) target) as [E|E].
    + rewrite renameInTree_node_hit by assumption.
      rewrite descendants_with_name_path.
      rewrite E in N1. now rewrite map_retarget_absent.
    + rewrite renameInTree_node_miss by assumption.
      rewrite descendants_with_children_map by reflexivity.
      rewrite descendants_nullish in N3 |- *. now apply Hx.
Qed.

Lemma renameInTree_rescalars (target newName : string) (t : Tree) :
  rescalars target newName t.
Proof.
  apply rescalars_step. apply Tree_Forall.
  - intros i nm ty p c e _. reflexivity.
  - intros i nm ty p c cs e IH. now apply rescalars_step.
Qed.

(* ------------------------------------------------------------------ *)
(** ** Splitting and joining paths *)

Open Scope string_scope.

Lemma string_app_assoc (a b c : string) : (a ++ b) ++ c = a ++ (b ++ c).
Proof. induction a as [|x a IH]; simpl; [reflexivity|now rewrite IH]. Qed.

Lemma join_slash_cons (a b : string) (l : list string) :
  join_slash (a :: b :: l) = a ++ String slash (join_slash (b :: l)).
Proof. reflexivity. Qed.

Lemma join_replace_last (parts : list string) (x : string) :
  parts <> [] -> join_slash (removelast parts ++ [x])%list = dir_of parts ++ x.
Proof.
  induction parts as [|a parts IH]; [congruence|]. intros _.
  destruct parts as [|b l]; [reflexivity|].
  assert (Hne : b :: l <> []) by discriminate.
  specialize (IH Hne). unfold dir_of in *.
  change (removelast (a :: b :: l)) with (a :: removelast (b :: l)).
  remember (removelast (b :: l)) as r eqn:Er.
  change (fold_right (fun seg acc => seg ++ String slash acc) "" (a :: r))
    with (a ++ String slash
            (fold_right (fun seg acc => seg ++ String slash acc) "" r)).
  rewrite string_app_assoc.
  change (String slash (fold_right (fun seg acc => seg ++ String slash acc) "" r) ++ x)
    with (String slash
            (fold_right (fun seg acc => seg ++ String slash acc) "" r ++ x)).
  rewrite <- IH.
  change ((a :: r) ++ [x])%list with (a :: (r ++ [x]))%list.
  destruct (r ++ [x])%list as [|y ys] eqn:E.
  - destruct r; discriminate.
  - apply join_slash_cons.
Qed.

Lemma join_dir_last (parts : list string) :
  parts <> [] -> join_slash parts = dir_of parts ++ last parts EmptyString.
Proof.
  intros H. rewrite <- join_replace_last by assumption.
  now rewrite <- app_removelast_last.
Qed.

Lemma split_slash_not_nil (s : string) : split_slash s <> [].
Proof.
  induction s as [|c s IH]; simpl; [discriminate|].
  destruct (Ascii.eqb c slash); [discriminate|].
  destruct (split_slash s); discriminate.
Qed.

Lemma join_split_slash (s : string) : join_slash (split_slash s) = s.
Proof.
  induction s as [|c s IH]; [reflexivity|]. simpl.
  destruct (Ascii.eqb c slash) eqn:E.
  - apply Ascii.eqb_eq in E. subst c.
    destruct (split_slash s) as [|b l] eqn:Es;
      [now apply split_slash_not_nil in Es|].
    rewrite join_slash_cons, IH. reflexivity.
  - destruct (split_slash s) as [|b l] eqn:Es;
      [now apply split_slash_not_nil in Es|].
    destruct l as [|b' l'].
    + simpl in *. now rewrite IH.
    + rewrite join_slash_cons. rewrite join_slash_cons in IH.
      rewrite <- IH. reflexivity.
Qed.

Lemma split_slash_segments (s : string) :
  Forall (fun seg => slash_free seg = true) (split_slash s).
Proof.
  induction s as [|c s IH]; simpl; [repeat constructor|].
  destruct (Ascii.eqb c slash) eqn:E; [constructor; [reflexivity|assumption]|].
  destruct (split_slash s) as [|b l]; [repeat constructor; simpl; now rewrite E|].
  inversion IH; subst. constructor; [|assumption]. simpl. now rewrite E.
Qed.

(** A path is its directory part followed by its last segment, and
    renaming swaps that segment. *)
Lemma renamed_path_spec (p : string) :
  let dir := dir_of (split_slash p) in
  let seg := last (split_slash p) EmptyString in
  p = dir ++ seg /\ slash_free seg = true /\
  forall newName, renamed_path p newName = dir ++ newName.
Proof.
  pose proof (split_slash_not_nil p) as Hne.
  repeat split.
  - rewrite <- join_dir_last by assumption. symmetry. apply join_split_slash.
  - pose proof (split_slash_segments p) as H. rewrite Forall_forall in H.
    apply H. destruct (exists_last Hne) as (l & a & E). rewrite E.
    rewrite last_last. apply in_or_app. right. now left.
  - intros newName. unfold renamed_path, set_last.
    destruct (split_slash p) as [|a l] eqn:E; [congruence|].
    now apply join_replace_last.
Qed.

Lemma prefix_cons (a b : ascii) (s1 s2 : string) :
  String.prefix (String a s1) (String b s2) =
  if Ascii.eqb a b then String.prefix s1 s2 else false.
Proof.
  cbn [String.prefix]. destruct (ascii_dec a b) as [->|Hn].
  - now rewrite Ascii.eqb_refl.
  - apply Ascii.eqb_neq in Hn. now rewrite Hn.
Qed.

Lemma prefix_app_cancel (a b c : string) :
  String.prefix (a ++ b) (a ++ c) = String.prefix b c.
Proof.
  induction a as [|x a IH]; [reflexivity|].
  cbn [append]. rewrite prefix_cons. now rewrite Ascii.eqb_refl.
Qed.

Lemma prefix_segment (x l r : string) :
  slash_free x = true -> slash_free l = true ->
  String.prefix (x ++ String slash EmptyString) (l ++ String slash r) = true ->
  x = l.
Proof.
  revert l. induction x as [|c x IH]; intros [|c' l] Hx Hl H;
    cbn [append slash_free] in *; try rewrite prefix_cons in H.
  - reflexivity.
  - destruct (Ascii.eqb slash c') eqn:E; [|discriminate].
    rewrite Ascii.eqb_sym in E. rewrite E in Hl. discriminate.
  - destruct (Ascii.eqb c slash) eqn:E; [|discriminate]. discriminate.
  - destruct (Ascii.eqb c c') eqn:E; [|discriminate].
    apply Ascii.eqb_eq in E. subst c'.
    apply andb_true_iff in Hx, Hl. f_equal. apply IH; tauto.
Qed.

(** A path below the old path is not below the new one, unless the name did
    not change. *)
Lemma renamed_path_not_above (p newName rest : string) :
  slash_free newName = true ->
  newName <> last (split_slash p) EmptyString ->
  dir_prefix (renamed_path p newName) (p ++ String slash rest) = false.
Proof.
  intros Hfree Hneq.
  destruct (renamed_path_spec p) as (Hp & Hseg & Hren).
  unfold dir_prefix. rewrite Hren.
  rewrite Hp at 2. rewrite !string_app_assoc, prefix_app_cancel.
  destruct (String.prefix _ _) eqn:E; [|reflexivity].
  apply prefix_segment in E; [contradiction|assumption|assumption].
Qed.

Open Scope list_scope.

(* ------------------------------------------------------------------ *)
(** ** Renaming a folder *)

(** C3, amended. In a tree with unique paths, renaming the folder at
    [target] gives a tree with the same nodes in the same order, whose
    scalars differ from the old ones only in the name and the path of that
    folder (last segment replaced); the folder keeps its children, so every
    node below it is still there with its old path.  When the new name has
    no slash and differs from the last segment of [target], no path of the
    form [target/...] below the folder has the new path as a directory
    prefix. *)
Theorem renameInTree_is_shallow
    (target newName : string) (tree : Tree) (f : FileNode) :
  NoDup (all_paths tree) ->
  In f (all_nodes tree) -> path f = target -> type f = Folder ->
  In (with_name_path f newName (renamed_path target newName))
     (all_nodes (renameInTree target newName tree)) /\
  map scalars (all_nodes (renameInTree target newName tree)) =
    map (fun n => scalars (retarget target newName n)) (all_nodes tree) /\
  forall d,
    In d (descendants f) ->
    In d (descendants (with_name_path f newName (renamed_path target newName))) /\
    In d (all_nodes (renameInTree target newName tree)) /\
    forall rest,
      path d = (target ++ String slash rest)%string ->
      slash_free newName = true ->
      newName <> last (split_slash target) EmptyString ->
      dir_prefix (renamed_path target newName) (path d) = false.
Proof.
  intros Hnd Hf Hp Hty. split; [|split].
  - now apply renameInTree_renames_node.
  - now apply renameInTree_rescalars.
  - intros d Hd. split; [exact Hd|]. split.
    + now apply (renameInTree_keeps_descendants target newName tree f d).
    + intros rest Hrest Hfree Hneq. rewrite Hrest.
      now apply renamed_path_not_above.
Qed.

(* ------------------------------------------------------------------ *)
(** ** [findFileByPath] in a tree with unique paths *)

Lemma findFileByPath_cons (x : FileNode) (t : Tree) (q : string) :
  findFileByPath (x :: t) q =
  match findFileByPath_node q x with
  | Some r => Some r
  | None => findFileByPath t q
  end.
Proof. reflexivity. Qed.

Lemma findFileByPath_node_unfold (q : string) (x : FileNode) :
  findFileByPath_node q x =
  if (String.eqb (path x) q && NodeType_eqb (type x) File)%bool then Some x
  else findFileByPath (kids x) q.
Proof. destruct x as [i nm t p c [cs|] e]; reflexivity. Qed.

Lemma all_paths_kids (x : FileNode) :
  all_paths (kids x) = map path (descendants x).
Proof. now rewrite descendants_nullish. Qed.

Lemma finds_unique_step (t : Tree) :
  Forall (fun n => finds_unique (kids n)) t -> finds_unique t.
Proof.
  intros IH. induction t as [|x t IHt]; [intros n _ []|].
  inversion IH as [|x0 t0 Hx Ht]; subst x0 t0.
  intros n Hnd Hn Hty.
  destruct (NoDup_all_paths_cons _ _ Hnd) as (N1 & N2 & N3 & N4 & N5).
  rewrite all_nodes_cons in Hn.
  rewrite findFileByPath_cons, findFileByPath_node_unfold.
  destruct Hn as [<-|Hn]; [|apply in_app_or in Hn; destruct Hn as [Hn|Hn]].
  - rewrite String.eqb_refl, Hty. reflexivity.
  - assert (E : String.eqb (path x) (path n) = false).
    { apply String.eqb_neq. intros E. apply N1. rewrite E. now apply in_map. }
    rewrite E. simpl. rewrite descendants_nullish in Hn, N3.
    now rewrite (Hx n N3 Hn Hty).
  - assert (Hq : In (path n) (all_paths t)) by now apply in_map.
    assert (E : String.eqb (path x) (path n) = false).
    { apply String.eqb_neq. intros E. apply N2. now rewrite E. }
    rewrite E. simpl. rewrite findFileByPath_absent.
    + now apply (IHt Ht n).
    + rewrite all_paths_kids. intros Hin. now apply (N5 (path n)).
Qed.

Lemma findFileByPath_unique (t : Tree) : finds_unique t.
Proof.
  apply finds_unique_step. apply Tree_Forall.
  - intros i nm ty p c e n _ [].
  - intros i nm ty p c cs e IH. now apply finds_unique_step.
Qed.

(* ------------------------------------------------------------------ *)
(** ** [updateFileContent] on trees *)

Lemma updateFileContent_node_hit (target newCode : string) (n : FileNode) :
  path n = target ->
  updateFileContent_node target newCode n = with_content n (Some newCode).
Proof.
  intros H. apply String.eqb_eq in H.
  destruct n as [i nm t p c [cs|] e]; simpl in *; now rewrite H.
Qed.

Lemma updateFileContent_node_miss (target newCode : string) (n : FileNode) :
  path n <> target ->
  updateFileContent_node target newCode n =
  with_children n (option_map (updateFileContent target newCode) (children n)).
Proof.
  intros H. apply String.eqb_neq in H.
  destruct n as [i nm t p c [cs|] e]; simpl in *; now rewrite H.
Qed.

Lemma updateFileContent_node_path (target newCode : string) (n : FileNode) :
  path (updateFileContent_node target newCode n) = path n.
Proof.
  destruct n as [i nm t p c [cs|] e]; simpl; destruct (String.eqb p target);
    reflexivity.
Qed.

(** The update moves no node: the paths are the same, in the same order. *)
Lemma updateFileContent_paths_step (target newCode : string) (t : Tree) :
  Forall (fun n => all_paths (updateFileContent target newCode (kids n)) =
                   all_paths (kids n)) t ->
  all_paths (updateFileContent target newCode t) = all_paths t.
Proof.
  intros IH. induction t as [|x t IHt]; [reflexivity|].
  inversion IH as [|x0 t0 Hx Ht]; subst x0 t0.
  change (updateFileContent target newCode (x :: t))
    with (updateFileContent_node target newCode x
            :: updateFileContent target newCode t).
  rewrite !all_paths_cons, (IHt Ht), updateFileContent_node_path.
  f_equal. f_equal.
  destruct (string_dec (path x) target) as [E|E].
  - now rewrite updateFileContent_node_hit.
  - rewrite updateFileContent_node_miss by assumption.
    rewrite descendants_with_children_map by reflexivity.
    fold (all_paths (updateFileContent target newCode (kids x))).
    now rewrite Hx, all_paths_kids.
Qed.

Lemma updateFileContent_paths (target newCode : string) (t : Tree) :
  all_paths (updateFileContent target newCode t) = all_paths t.
Proof.
  apply updateFileContent_paths_step. apply Tree_Forall.
  - reflexivity.
  - intros i nm ty p c cs e IH. now apply updateFileContent_paths_step.
Qed.

Lemma updates_node_step (target newCode : string) (t : Tree) :
  Forall (fun n => updates_node target newCode (kids n)) t ->
  updates_node target newCode t.
Proof.
  intros IH. induction t as [|x t IHt]; [intros n _ []|].
  inversion IH as [|x0 t0 Hx Ht]; subst x0 t0.
  intros n Hnd Hn Hp.
  destruct (NoDup_all_paths_cons _ _ Hnd) as (N1 & N2 & N3 & N4 & N5).
  rewrite all_nodes_cons in Hn.
  change (updateFileContent target newCode (x :: t))
    with (updateFileContent_node target newCode x
            :: updateFileContent target newCode t).
  rewrite all_nodes_cons.
  destruct Hn as [<-|Hn]; [|apply in_app_or in Hn; destruct Hn as [Hn|Hn]].
  - rewrite updateFileContent_node_hit by assumption. now left.
  - right. apply in_or_app. left.
    assert (E : path x <> target).
    { intros E. apply N1. rewrite E, <- Hp. now apply in_map. }
    rewrite updateFileContent_node_miss by assumption.
    rewrite descendants_with_children_map by reflexivity.
    rewrite descendants_nullish in Hn, N3. now apply (Hx n).
  - right. apply in_or_app. right. now apply (IHt Ht n).
Qed.

Lemma updateFileContent_updates_node (target newCode : string) (t : Tree) :
  updates_node target newCode t.
Proof.
  apply updates_node_step. apply Tree_Forall.
  - intros i nm ty p c e n _ [].
  - intros i nm ty p c cs e IH. now apply updates_node_step.
Qed.

(** Where no node has the path, nothing changes. *)
Lemma updateFileContent_absent_step (target newCode : string) (t : Tree) :
  Forall (fun n => ~ In target (all_paths (kids n)) ->
                   updateFileContent target newCode (kids n) = kids n) t ->
  ~ In target (all_paths t) -> updateFileContent target newCode t = t.
Proof.
  intros IH. induction t as [|x t IHt]; [reflexivity|].
  inversion IH as [|x0 t0 Hx Ht]; subst x0 t0.
  rewrite all_paths_cons. intros Hn.
  change (updateFileContent target newCode (x :: t))
    with (updateFileContent_node target newCode x
            :: updateFileContent target newCode t).
  rewrite IHt; [|assumption|intros H; apply Hn; right; apply in_or_app; now right].
  f_equal. rewrite updateFileContent_node_miss by (intros E; apply Hn; now left).
  assert (Hk : ~ In target (all_paths (kids x))).
  { rewrite all_paths_kids. intros H. apply Hn. right. apply in_or_app. now left. }
  specialize (Hx Hk). destruct x as [i nm ty p c [cs|] e]; [|reflexivity].
  unfold kids in Hx. simpl in *. unfold with_children. simpl. now rewrite Hx.
Qed.

Lemma updateFileContent_absent (target newCode : string) (t : Tree) :
  ~ In target (all_paths t) -> updateFileContent target newCode t = t.
Proof.
  apply updateFileContent_absent_step. apply Tree_Forall.
  - reflexivity.
  - intros i nm ty p c cs e IH. now apply updateFileContent_absent_step.
Qed.

(* ------------------------------------------------------------------ *)
(** ** [updateFileContent] on the object store *)











Lemma kids_with_children_map (n : FileNode) (f : Tree -> Tree) :
  f [] = [] ->
  kids (with_children n (option_map f (children n))) = f (kids n).
Proof.
  intros Hf. destruct n as [i nm t p c [cs|] e]; unfold kids; simpl;
    [reflexivity|now rewrite Hf].
Qed.

(* ------------------------------------------------------------------ *)
(** ** Nodes that share a path *)


Lemma path_not_below_step (t : Tree) :
  Forall (fun n => NoDup (all_paths (kids n)) ->
                   forall f, In f (all_nodes (kids n)) ->
                             ~ In (path f) (map path (descendants f))) t ->
  NoDup (all_paths t) ->
  forall f, In f (all_nodes t) -> ~ In (path f) (map path (descendants f)).
Proof.
  intros IH. induction t as [|x t IHt]; [intros _ f []|].
  inversion IH as [|x0 t0 Hx Ht]; subst x0 t0.
  intros Hnd f Hf.
  destruct (NoDup_all_paths_cons _ _ Hnd) as (N1 & N2 & N3 & N4 & N5).
  rewrite all_nodes_cons in Hf.
  destruct Hf as [<-|Hf]; [exact N1|apply in_app_or in Hf; destruct Hf as [Hf|Hf]].
  - apply Hx; [now rewrite all_paths_kids|].
    rewrite descendants_nullish in Hf. exact Hf.
  - now apply IHt.
Qed.

(** With unique paths no node has its own path below it. *)
Lemma NoDup_unnested (target : string) (t : Tree) :
  NoDup (all_paths t) -> unnested target t.
Proof.
  intros Hnd f d Hf Hp Hd Hpd.
  assert (H : forall t, NoDup (all_paths t) ->
                forall f, In f (all_nodes t) ->
                          ~ In (path f) (map path (descendants f))).
  { clear. intros t. apply path_not_below_step. apply Tree_Forall.
    - intros i nm ty p c e _ f [].
    - intros i nm ty p c cs e IH. now apply path_not_below_step. }
  apply (H t Hnd f Hf). rewrite Hp, <- Hpd. now apply in_map.
Qed.





(* ------------------------------------------------------------------ *)
(** ** Updating the content of a file *)


(** What the update leaves there: the folder carries the new content, the
    file the old one. *)
Lemma update_stops_at_renamed_folder_result :
  files d_renamed
  = [mkNode "1" "d/x" Folder "/d/x" None
       (Some [file_node "2" "x" "/d/x" "c"]) []] /\
  updateFileContent "/d/x" "y" (files d_renamed)
  = [mkNode "1" "d/x" Folder "/d/x" (Some "y")
       (Some [file_node "2" "x" "/d/x" "c"]) []].
Proof. vm_compute. split; reflexivity. Qed.



(** C2. [updateFileContent] does not look at the type of the node it
    matches: called with the path of a folder it writes [content] onto the
    folder instead of returning the tree as it was. *)
Theorem updateFileContent_writes_onto_folder :
  let tree := [folder_node "1" "d" "/d" [folder_node "2" "x" "/d/x" []]] in
  findFileByPath tree "/d/x" = None /\
  updateFileContent "/d/x" "y" tree =
    [folder_node "1" "d" "/d" [mkNode "2" "x" Folder "/d/x" (Some "y") (Some []) []]] /\
  updateFileContent "/d/x" "y" tree <> tree.
Proof.
  simpl. repeat split. discriminate.
Qed.

(** The same through the handlers: the file [/d/x] is open, its folder is
    deleted (the open file stays as it is), folders [d] and [d/x] are
    created, and the next key stroke lands on the folder [/d/x]. *)
Lemma code_change_reaches_folder :
  let s := run [ Seed (Some "p1") [folder_node "1" "d" "/d" [file_node "2" "x" "/d/x" "c"]];
                 Delete "/d";
                 Create "3" "/" "d" Folder;
                 Create "4" "/d" "x" Folder ] initial in
  editor_mounted s = true /\
  findFileByPath (files s) "/d/x" = None /\
  files (handle (CodeChange "y") s) =
    [mkNode "3" "d" Folder "/d" None
       (Some [mkNode "4" "x" Folder "/d/x" (Some "y") (Some []) []]) []].
Proof. vm_compute. repeat split. Qed.

(* ------------------------------------------------------------------ *)
(** ** Rebinding the current file *)

(** C1 as stated fails: the current file stays although its path finds
    nothing in the (empty) tree. *)
Lemma reconcile_keeps_missing_file :
  ~ reconcile_clears_missing [] a_txt.
Proof.
  unfold reconcile_clears_missing. intros H.
  specialize (H eq_refl). discriminate.
Qed.

(** Through the handlers: the folder above the open file is deleted; after
    the effects have run the file is still the current one. *)
Lemma deleted_file_stays_current :
  let s := run [ Seed (Some "p1") [src_folder]; Delete "/src" ] initial in
  files s = [] /\ currentFile s = Some a_txt.
Proof. vm_compute. split; reflexivity. Qed.

(** C1, amended. When the path of the current file finds no file in the
    tree, the rebinding effect leaves the current file as it is; the effect
    only ever yields "no current file" when there was none before. *)
Theorem reconcile_missing_keeps_current (tree : Tree) (cur : FileNode) :
  findFileByPath tree (path cur) = None ->
  reconcile tree (Some cur) = Some cur /\
  (forall cf, reconcile tree cf = None <-> cf = None).
Proof.
  intros H. split.
  - unfold reconcile. now rewrite H.
  - intros [x|]; simpl; [|tauto]. split; [|discriminate].
    destruct (findFileByPath tree (path x)) as [l|]; [|discriminate].
    destruct (negb _); discriminate.
Qed.

Lemma reconcile_missing_keeps_current_witness :
  reconcile [] (Some a_txt) = Some a_txt /\
  (forall cf, reconcile [] cf = None <-> cf = None).
Proof.
  apply (reconcile_missing_keeps_current [] a_txt). reflexivity.
Defined.

(* ------------------------------------------------------------------ *)
(** ** Timers *)

Lemma filter_nothing {A : Type} (f : A -> bool) (l : list A) :
  (forall x, In x l -> f x = false) -> filter f l = [].
Proof.
  induction l as [|x l IH]; simpl; intros H; [reflexivity|].
  rewrite (H x) by now left. apply IH. intros y Hy. apply H. now right.
Qed.

Lemma filter_everything {A : Type} (f : A -> bool) (l : list A) :
  (forall x, In x l -> f x = true) -> filter f l = l.
Proof.
  induction l as [|x l IH]; simpl; intros H; [reflexivity|].
  rewrite (H x) by now left. f_equal. apply IH. intros y Hy. apply H. now right.
Qed.

Lemma set_clock_same (s : State) : set_clock (clock s) s = s.
Proof. now destruct s. Qed.

Lemma set_clock_twice (a b : nat) (s : State) :
  set_clock b (set_clock a s) = set_clock b s.
Proof. reflexivity. Qed.

(** While no timer is due, time just passes. *)
Lemma tick_idle (s : State) :
  (forall e, In e (timers s) -> S (clock s) < due (snd e)) ->
  tick s = set_clock (S (clock s)) s.
Proof.
  intros H. unfold tick.
  rewrite filter_nothing, filter_everything; [reflexivity| |].
  - intros e He. unfold is_due. apply negb_true_iff, Nat.leb_gt. now apply H.
  - intros e He. unfold is_due. apply Nat.leb_gt. now apply H.
Qed.

Lemma advance_idle (d : nat) (s : State) :
  (forall e, In e (timers s) -> clock s + d < due (snd e)) ->
  advance d s = set_clock (clock s + d) s.
Proof.
  revert s. induction d as [|d IH]; intros s H; simpl.
  - now rewrite Nat.add_0_r, set_clock_same.
  - rewrite tick_idle by (intros e He; specialize (H e He); lia).
    rewrite IH by (intros e He; simpl in *; specialize (H e He); lia).
    rewrite set_clock_twice. simpl. f_equal. lia.
Qed.

(** The one pending timer runs when its instant comes, and only then. *)
Lemma tick_fires (s : State) (e : nat * Timer) :
  timers s = [e] -> due (snd e) = S (clock s) ->
  tick s = fire (snd e) (set_timers [] (set_clock (S (clock s)) s)).
Proof.
  intros Ht Hd. unfold tick. rewrite Ht. simpl. unfold is_due. rewrite Hd.
  rewrite Nat.leb_refl. reflexivity.
Qed.

Lemma advance_fires (d : nat) (s : State) (e : nat * Timer) :
  timers s = [e] -> clock s < due (snd e) -> due (snd e) <= clock s + d ->
  advance d s =
  set_clock (clock s + d)
    (fire (snd e) (set_timers [] (set_clock (due (snd e)) s))).
Proof.
  revert s. induction d as [|d IH]; intros s Ht Hlt Hle; [lia|]. simpl.
  destruct (Nat.eq_dec (due (snd e)) (S (clock s))) as [E|E].
  - rewrite (tick_fires s e Ht E), E.
    rewrite advance_idle by (simpl; intros ? []).
    simpl. f_equal. lia.
  - rewrite tick_idle by (rewrite Ht; intros ? [<-|[]]; lia).
    rewrite (IH (set_clock (S (clock s)) s)); simpl; try assumption; try lia.
    f_equal. lia.
Qed.

(* ------------------------------------------------------------------ *)
(** ** The persist effect *)

Lemma clearTimeout_single (s : State) (e : nat * Timer) :
  timers s = [e] -> timers (clearTimeout (fst e) s) = [].
Proof. intros H. simpl. rewrite H. simpl. now rewrite Nat.eqb_refl. Qed.

(** After a render in which the tree changed, the only timer pending is the
    one just armed, if any; nothing else about persistence moves. *)
Lemma inv_single_timer (s : State) : inv s -> single_timer s.
Proof.
  intros [_ [H|(e & H1 & H2 & _)]]; [now left|right; eauto].
Qed.

Lemma files_changed_spec (s : State) :
  single_timer s ->
  let s' := files_changed s in
  timers s' = armed (projectId s) (files s) (clock s) (next_timer s) /\
  single_timer s' /\
  files s' = files s /\ projectId s' = projectId s /\ clock s' = clock s /\
  writes s' = writes s /\ saveError s' = saveError s /\
  lastSaved s' = lastSaved s /\ inflight s' = inflight s.
Proof.
  intros H.
  assert (Hc : timers match persist_cleanup s with
                      | Some t => clearTimeout t s
                      | None => s
                      end = []).
  { destruct H as [H|(e & H1 & H2)].
    - destruct (persist_cleanup s); simpl; [|assumption]. now rewrite H.
    - rewrite H2. now apply clearTimeout_single. }
  clear H. unfold files_changed, rebind_effect, persist_effect, armed, single_timer.
  destruct (persist_cleanup s) as [t|];
    simpl in Hc |- *; destruct (projectId s) as [pid|] eqn:Ep; simpl;
    try destruct (falsy pid); simpl; try destruct (files s) eqn:Ef; simpl;
    rewrite ?Hc; simpl; repeat split; auto;
    right; eexists; split; reflexivity.
Qed.

(* ------------------------------------------------------------------ *)
(** ** What every reachable state satisfies *)

Lemma sanitizeFileTree_not_nil (t : Tree) :
  t <> [] -> sanitizeFileTree t <> [].
Proof. destruct t; simpl; [congruence|discriminate]. Qed.

Lemma armed_cases (pid : option string) (fs : Tree) (now t : nat) :
  armed pid fs now t = [] \/
  exists p, pid = Some p /\ falsy p = false /\ fs <> [] /\
            armed pid fs now t = [(t, mkTimer (now + quiet_period) fs p)].
Proof.
  unfold armed. destruct pid as [p|]; [|now left].
  destruct (falsy p) eqn:Ep; [now left|].
  destruct fs as [|x fs]; [now left|].
  right. exists p. repeat split; auto. discriminate.
Qed.

Lemma inv_files_changed (s x : State) :
  inv s ->
  timers x = timers s -> persist_cleanup x = persist_cleanup s ->
  writes x = writes s ->
  inv (files_changed x).
Proof.
  intros Hi Ht Hc Hw.
  assert (Hs : single_timer x).
  { destruct (inv_single_timer s Hi) as [H|(e & H1 & H2)];
      [left|right; exists e; split]; congruence. }
  destruct (files_changed_spec x Hs)
    as (Ha & Hs' & Hf & Hp & Hk & Hw' & _). split.
  - rewrite Hw', Hw. apply Hi.
  - destruct (armed_cases (projectId x) (files x) (clock x) (next_timer x))
      as [E|(p & Ep & Efal & Efs & E)]; rewrite E in Ha; [now left|].
    right. eexists. split; [exact Ha|].
    destruct Hs' as [Hs'|(e & H1 & H2)]; [congruence|].
    rewrite Ha in H1. injection H1 as <-.
    unfold timer_current. rewrite Hf, Hp, Hk. simpl.
    repeat split; auto. unfold quiet_period. lia.
Qed.

Lemma inv_tick (s : State) : inv s -> inv (tick s).
Proof.
  intros [Hw [Ht|(e & Ht & Hc & Hf & Hne & Hp & Hfal & Hlt & Hle)]].
  - rewrite tick_idle by (rewrite Ht; intros ? []).
    split; [exact Hw|now left].
  - destruct (Nat.eq_dec (due (snd e)) (S (clock s))) as [E|E].
    + rewrite (tick_fires s e Ht E). split; [|now left].
      simpl. intros w Hin. apply in_app_or in Hin. destruct Hin as [Hin|[<-|[]]].
      * now apply Hw.
      * simpl. apply sanitizeFileTree_not_nil. now rewrite Hf.
    + rewrite tick_idle by (rewrite Ht; intros ? [<-|[]]; lia).
      split; [exact Hw|]. right. exists e. split; [exact Ht|].
      unfold timer_current. simpl. repeat split; auto; lia.
Qed.

Lemma inv_advance (d : nat) (s : State) : inv s -> inv (advance d s).
Proof.
  revert s. induction d as [|d IH]; intros s H; simpl; auto using inv_tick.
Qed.

Lemma inv_settle (r : Response) (s : State) : inv s -> inv (settle r s).
Proof.
  intros H. unfold settle. destruct (inflight s); [assumption|].
  destruct r; exact H.
Qed.

Lemma inv_handle (e : Event) (s : State) : inv s -> inv (handle e s).
Proof.
  intros H. destruct e; simpl.
  - destruct (editor_mounted s); [|assumption].
    unfold handleCodeChange. destruct (currentFile s); [|assumption].
    now apply (inv_files_changed s).
  - unfold handleFileSelect. destruct (type file); [|assumption].
    destruct (path_changed _ _); exact H.
  - unfold handleFileCreate. destruct ty; now apply (inv_files_changed s).
  - unfold handleFileDelete. destruct (path_is target (currentFile s));
      now apply (inv_files_changed s).
  - unfold handleFileRename. destruct (path_is target (currentFile s));
      [destruct (find _ _)|]; now apply (inv_files_changed s).
  - unfold seed. destruct pid; now apply (inv_files_changed s).
  - unfold loadTemplate. now apply (inv_files_changed s).
  - now apply inv_advance.
  - now apply inv_settle.
Qed.

Lemma inv_run (es : list Event) (s : State) : inv s -> inv (run es s).
Proof.
  revert s. induction es as [|e es IH]; intros s H; [assumption|].
  apply IH. now apply inv_handle.
Qed.

Lemma reachable_inv (s : State) : reachable s -> inv s.
Proof.
  intros (es & ->). apply inv_run. split; [intros w []|now left].
Qed.

(* ------------------------------------------------------------------ *)
(** ** Edits and the timer *)

(** An edit replaces whatever timer was pending by one for the new tree,
    or by none when the new tree is empty. *)
Lemma mutation_rearms (e : Event) (s : State) (pid : string) :
  single_timer s -> mutates e s = true -> projectId s = Some pid ->
  let s' := handle e s in
  timers s' = armed (Some pid) (files s') (clock s) (next_timer s) /\
  single_timer s' /\ projectId s' = Some pid /\ clock s' = clock s /\
  writes s' = writes s.
Proof.
  intros Hs Hm Hp.
  assert (G : forall x,
             timers x = timers s -> persist_cleanup x = persist_cleanup s ->
             projectId x = projectId s -> clock x = clock s ->
             next_timer x = next_timer s -> writes x = writes s ->
             timers (files_changed x)
               = armed (Some pid) (files (files_changed x)) (clock s) (next_timer s) /\
             single_timer (files_changed x) /\
             projectId (files_changed x) = Some pid /\
             clock (files_changed x) = clock s /\
             writes (files_changed x) = writes s).
  { intros x Ht Hc Hpx Hk Hn Hw.
    assert (Hsx : single_timer x).
    { destruct Hs as [H|(t & H1 & H2)];
        [left|right; exists t; split]; congruence. }
    destruct (files_changed_spec x Hsx)
      as (Ha & Hs' & Hf & Hp' & Hk' & Hw' & _).
    rewrite Hf, Hp', Hk', Hw', Ha. repeat split; auto; congruence. }
  destruct e; cbn [handle mutates] in Hm |- *; try discriminate.
  - rewrite Hm. unfold handleCodeChange. unfold editor_mounted in Hm.
    destruct (currentFile s); [|discriminate]. now apply G.
  - unfold handleFileCreate. destruct ty; now apply G.
  - unfold handleFileDelete. destruct (path_is target (currentFile s));
      now apply G.
  - unfold handleFileRename. destruct (path_is target (currentFile s));
      [destruct (find _ _)|]; now apply G.
Qed.

Lemma armed_due (pid : option string) (fs : Tree) (now t : nat) (e : nat * Timer) :
  In e (armed pid fs now t) -> due (snd e) = now + quiet_period.
Proof.
  destruct (armed_cases pid fs now t) as [E|(p & _ & _ & _ & E)]; rewrite E.
  - intros [].
  - intros [<-|[]]. reflexivity.
Qed.

Lemma burst_settled (pid : string) (w : list WriteReq)
    (b : list (nat * Event)) (s : State) :
  settled_burst pid w s -> within_quiet_period b s ->
  settled_burst pid w (burst b s).
Proof.
  revert s. induction b as [|[gap e] b IH]; intros s Hs Hb; [assumption|].
  destruct Hs as (Hst & Hp & Hw & t & Ht).
  cbn [within_quiet_period burst] in Hb |- *.
  destruct Hb as (Hgap & Hm & Hb).
  assert (Ha : advance gap s = set_clock (clock s + gap) s).
  { apply advance_idle. intros x Hx. rewrite Ht in Hx.
    apply armed_due in Hx. lia. }
  rewrite Ha in *. apply IH; [|assumption].
  destruct (mutation_rearms e (set_clock (clock s + gap) s) pid)
    as (Ht' & Hst' & Hp' & Hk' & Hw'); try assumption.
  unfold settled_burst. rewrite Hp', Hw', Ht', Hk'. simpl.
  repeat split; eauto.
Qed.

(** Whatever the state of a write, only the timers, the clock and the
    requests already sent decide which requests time will bring. *)
Lemma fold_fire_schedule (l : list (nat * Timer)) (s : State) :
  let s' := fold_left (fun acc e => fire (snd e) acc) l s in
  timers s' = timers s /\ clock s' = clock s /\
  writes s' = writes s ++
    map (fun e => mkWrite (clock s) (t_projectId (snd e))
                    (sanitizeFileTree (t_files (snd e)))) l.
Proof.
  revert s. induction l as [|e l IH]; intros s; simpl.
  - now rewrite app_nil_r.
  - destruct (IH (fire (snd e) s)) as (H1 & H2 & H3).
    rewrite H1, H2, H3. simpl. now rewrite <- app_assoc.
Qed.

Lemma tick_same_schedule (s1 s2 : State) :
  same_schedule s1 s2 -> same_schedule (tick s1) (tick s2).
Proof.
  intros (Ht & Hc & Hw). unfold tick, same_schedule.
  destruct (fold_fire_schedule (filter (is_due (S (clock s1))) (timers s1))
    (mkState (files s1) (currentFile s1) (projectId s1) (saveError s1)
       (lastSaved s1) (S (clock s1))
       (filter (fun e => negb (is_due (S (clock s1)) e)) (timers s1))
       (next_timer s1) (persist_cleanup s1) (writes s1) (inflight s1)))
    as (A1 & A2 & A3).
  destruct (fold_fire_schedule (filter (is_due (S (clock s2))) (timers s2))
    (mkState (files s2) (currentFile s2) (projectId s2) (saveError s2)
       (lastSaved s2) (S (clock s2))
       (filter (fun e => negb (is_due (S (clock s2)) e)) (timers s2))
       (next_timer s2) (persist_cleanup s2) (writes s2) (inflight s2)))
    as (B1 & B2 & B3).
  rewrite A1, A2, A3, B1, B2, B3. simpl. rewrite Ht, Hc, Hw. auto.
Qed.

Lemma advance_same_schedule (d : nat) (s1 s2 : State) :
  same_schedule s1 s2 -> same_schedule (advance d s1) (advance d s2).
Proof.
  revert s1 s2. induction d as [|d IH]; intros s1 s2 H; simpl;
    auto using tick_same_schedule.
Qed.

Lemma settle_same_schedule (r : Response) (s : State) :
  same_schedule (settle r s) s.
Proof.
  unfold settle, same_schedule. destruct (inflight s); [auto|].
  destruct r; simpl; auto.
Qed.

Lemma or_else_not_empty (o : option string) (d : string) :
  d <> EmptyString -> or_else o d <> EmptyString.
Proof. destruct o as [[|c s]|]; simpl; auto. discriminate. Qed.

Lemma failure_message_not_empty (r : Response) :
  r <> RespOk ->
  exists msg, failure_message r = Some msg /\ msg <> EmptyString.
Proof.
  destruct r as [|[err|] status|m]; simpl; intros H; [congruence| | |];
    eexists; (split; [reflexivity|]); try discriminate;
    apply or_else_not_empty; discriminate.
Qed.

(* ------------------------------------------------------------------ *)
(** ** Debounced persistence *)

(** C4 as stated fails: in a project with one file, deleting the file is
    an edit with the identifier bound, yet no request follows. *)
Lemma emptied_tree_is_not_written :
  projectId one_file_loaded = Some "p1" /\
  mutates (Delete "/a.txt") one_file_loaded = true /\
  within_quiet_period [] (handle (Delete "/a.txt") one_file_loaded) /\
  ~ one_write_per_burst one_file_loaded (Delete "/a.txt") [] 1200.
Proof.
  repeat split. intros (w & H & _). vm_compute in H. discriminate.
Qed.

(** C4, amended. With an identifier bound, take a first edit and then any
    run of edits, each coming less than 1200 ms after the one before.  No
    request is sent during the run; at its end the only pending timer, if
    any, is a fresh one for the tree of the last edit, due 1200 ms after
    that edit; and once at least 1200 ms have passed without an edit,
    exactly one request has been sent, carrying the sanitized tree of the
    last edit, if that tree is not empty, and none if it is empty. *)
Theorem debounce_collapses_burst
    (s : State) (pid : string) (e : Event) (b : list (nat * Event)) (q : nat) :
  reachable s ->
  projectId s = Some pid -> falsy pid = false ->
  mutates e s = true ->
  within_quiet_period b (handle e s) ->
  quiet_period <= q ->
  let s' := burst b (handle e s) in
  writes s' = writes s /\
  map snd (timers s') =
    when_nonempty (files s')
      [mkTimer (clock s' + quiet_period) (files s') pid] /\
  writes (advance q s') =
    writes s ++
    when_nonempty (files s')
      [mkWrite (clock s' + quiet_period) pid (sanitizeFileTree (files s'))].
Proof.
  intros Hr Hp Hfal Hm Hb Hq.
  assert (Hs : single_timer s) by now apply inv_single_timer, reachable_inv.
  destruct (mutation_rearms e s pid Hs Hm Hp) as (Ht & Hst & Hp' & Hk & Hw).
  assert (H0 : settled_burst pid (writes s) (handle e s)).
  { unfold settled_burst. rewrite Hk. eauto 6. }
  destruct (burst_settled pid (writes s) b (handle e s) H0 Hb)
    as (_ & _ & Hw' & t & Ht').
  cbv zeta. set (s' := burst b (handle e s)) in *.
  unfold armed in Ht'. rewrite Hfal in Ht'. unfold when_nonempty.
  split; [exact Hw'|]. destruct (files s') as [|x fs] eqn:Ef.
  - rewrite Ht'. split; [reflexivity|].
    rewrite advance_idle by (rewrite Ht'; intros ? []).
    simpl. now rewrite Hw', app_nil_r.
  - rewrite Ht'. split; [reflexivity|].
    rewrite (advance_fires q s' _ Ht')
      by (simpl; unfold quiet_period in *; lia).
    simpl. now rewrite Hw'.
Qed.

Lemma debounce_collapses_burst_witness :
  (length (files src_edited) = 1 /\ clock src_edited = 1499) /\
  writes src_edited = writes src_loaded /\
  map snd (timers src_edited) =
    when_nonempty (files src_edited)
      [mkTimer (clock src_edited + quiet_period) (files src_edited) "p1"] /\
  writes (advance 1200 src_edited) =
    writes src_loaded ++
    when_nonempty (files src_edited)
      [mkWrite (clock src_edited + quiet_period) "p1"
         (sanitizeFileTree (files src_edited))].
Proof.
  split; [split; vm_compute; reflexivity|].
  apply (debounce_collapses_burst src_loaded "p1" (CodeChange "y")
           [(300, Rename "/src" "lib"); (1199, CodeChange "z")] 1200).
  - exists [Seed (Some "p1") [src_folder]]. reflexivity.
  - reflexivity.
  - reflexivity.
  - vm_compute. reflexivity.
  - vm_compute. repeat split; lia.
  - unfold quiet_period. lia.
Defined.

(** C10. In every state the component can reach, no request sent so far
    carries an empty tree; and while the tree is empty no timer is pending
    and no request is sent however long one waits, whether or not an
    identifier is bound. *)
Theorem empty_tree_is_never_persisted (s : State) :
  reachable s ->
  (forall w, In w (writes s) -> w_payload w <> []) /\
  (files s = [] ->
   timers s = [] /\ forall d, writes (advance d s) = writes s).
Proof.
  intros Hr. destruct (reachable_inv s Hr) as [Hw Ht]. split; [exact Hw|].
  intros Hf.
  assert (E : timers s = []).
  { destruct Ht as [Ht|(e & _ & _ & _ & Hne & _)]; [assumption|contradiction]. }
  split; [exact E|]. intros d.
  now rewrite advance_idle by (rewrite E; intros ? []).
Qed.

Lemma empty_tree_is_never_persisted_witness :
  (projectId one_file_deleted = Some "p1" /\ files one_file_deleted = [] /\
   length (writes one_file_deleted) = 1) /\
  (forall w, In w (writes one_file_deleted) -> w_payload w <> []) /\
  timers one_file_deleted = [] /\
  forall d, writes (advance d one_file_deleted) = writes one_file_deleted.
Proof.
  split; [split; [|split]; vm_compute; reflexivity|].
  destruct (empty_tree_is_never_persisted one_file_deleted) as (H1 & H2).
  - exists [ Seed (Some "p1") [file_node "1" "a.txt" "/a.txt" "x"];
             Advance 1200; Settle RespOk; Delete "/a.txt" ].
    vm_compute. reflexivity.
  - split; [exact H1|]. apply H2. vm_compute. reflexivity.
Defined.

(** C9. When the request of an outstanding write settles: on success the
    error is cleared and the instant of completion is recorded; on failure
    the error becomes the (non-empty) failure message and the instant of the
    last save stays as it was.  Either way the handler sends nothing and
    arms nothing, so the requests that time will bring are the ones that
    were due anyway; the next edit that leaves a non-empty tree, with an
    identifier bound, arms a timer for a fresh attempt. *)
Theorem settle_sets_save_state (s : State) (r : Response) (k : nat) :
  reachable s -> inflight s = S k ->
  let s' := settle r s in
  match r with
  | RespOk => saveError s' = None /\ lastSaved s' = Some (clock s)
  | _ =>
      saveError s' = failure_message r /\
      (exists msg, failure_message r = Some msg /\ msg <> EmptyString) /\
      lastSaved s' = lastSaved s
  end /\
  timers s' = timers s /\ writes s' = writes s /\
  (forall d, writes (advance d s') = writes (advance d s)) /\
  (forall e pid,
     mutates e s' = true -> projectId s' = Some pid -> falsy pid = false ->
     files (handle e s') <> [] ->
     map snd (timers (handle e s')) =
       [mkTimer (clock s' + quiet_period) (files (handle e s')) pid]).
Proof.
  intros Hr Hin. cbv zeta.
  destruct (settle_same_schedule r s) as (Ht & Hc & Hw).
  split; [|split; [exact Ht|split; [exact Hw|split]]].
  - unfold settle. rewrite Hin.
    destruct r as [|body status|m]; [simpl; auto| |];
      (split; [reflexivity|split; [|reflexivity]]);
      apply failure_message_not_empty; discriminate.
  - intros d. apply advance_same_schedule. apply settle_same_schedule.
  - intros e pid Hm Hp Hfal Hne.
    assert (Hs : single_timer (settle r s)).
    { apply inv_single_timer, inv_settle, reachable_inv, Hr. }
    destruct (mutation_rearms e (settle r s) pid Hs Hm Hp) as (Ha & _ & _ & _ & _).
    rewrite Ha. unfold armed. rewrite Hfal.
    destruct (files (handle e (settle r s))); [congruence|reflexivity].
Qed.

Lemma settle_sets_save_state_witness :
  let s' := settle (RespNotOk (Some None) 500) src_writing in
  (inflight src_writing = 1 /\ saveError src_writing = None) /\
  (saveError s' = Some "HTTP 500" /\ lastSaved s' = lastSaved src_writing) /\
  timers s' = timers src_writing /\ writes s' = writes src_writing /\
  (forall d, writes (advance d s') = writes (advance d src_writing)) /\
  map snd (timers (handle (CodeChange "z") s')) =
    [mkTimer (clock s' + quiet_period) (files (handle (CodeChange "z") s')) "p1"].
Proof.
  split; [split; vm_compute; reflexivity|].
  destruct (settle_sets_save_state src_writing (RespNotOk (Some None) 500) 0)
    as ((H1 & _ & H2) & H3 & H4 & H5 & H6).
  - exists [Seed (Some "p1") [src_folder]; Advance 1200].
    vm_compute. reflexivity.
  - vm_compute. reflexivity.
  - split; [split; [exact H1|exact H2]|].
    split; [exact H3|]. split; [exact H4|]. split; [exact H5|].
    apply H6; [vm_compute; reflexivity|vm_compute; reflexivity|reflexivity|
               vm_compute; discriminate].
Defined.

(* ------------------------------------------------------------------ *)
(** ** The theorems on the sample project *)

Lemma src_project_paths_unique : NoDup (all_paths src_project).
Proof. repeat constructor; simpl; intuition discriminate. Qed.

Lemma sanitize_keeps_only_persisted_fields_witness :
  let s := mkNode "3" "App.tsx" File "/App.tsx" (Some "") None [] in
  In s (all_nodes (sanitizeFileTree src_project)) /\
  exists n,
    In n (all_nodes src_project) /\
    id s = id n /\ name s = name n /\ type s = type n /\ path s = path n /\
    extra s = [] /\
    match type n with
    | File =>
        content s = Some (nullish (content n) EmptyString) /\
        children s = None
    | Folder =>
        content s = None /\
        children s = Some (sanitizeFileTree (nullish (children n) []))
    end.
Proof.
  split; [simpl; auto|].
  apply (sanitize_keeps_only_persisted_fields src_project).
  simpl. auto.
Defined.

Lemma addToTree_unknown_parent_is_noop_witness :
  addToTree "/lib" (newNode "9" "/lib" "b.txt" File) src_project = src_project.
Proof.
  apply (addToTree_unknown_parent_is_noop "/lib"
           (newNode "9" "/lib" "b.txt" File) src_project).
  - discriminate.
  - simpl. intros n [<-|[<-|[<-|[]]]]; discriminate.
Defined.

(** C5 as stated fails on a tree the handlers build: after [/src] has
    been renamed to [lib] and a new [/src/a.txt] has been created, deleting
    [/src] leaves the old file, which still answers to [/src/a.txt]. *)
Lemma deleted_path_still_resolves :
  ~ removes_descendant_lookups "/src" (files src_recreated).
Proof.
  intros H.
  specialize (H (folder_node "3" "src" "/src" [newNode "4" "/src" "a.txt" File])
                (newNode "4" "/src" "a.txt" File)).
  assert (Hf : findFileByPath (deleteFromTree "/src" (files src_recreated))
                 (path (newNode "4" "/src" "a.txt" File)) = None).
  { apply H; [vm_compute; auto|reflexivity|reflexivity|vm_compute; auto]. }
  vm_compute in Hf. discriminate Hf.
Qed.

(** Through the handlers: what the deletion leaves, and what the lookup
    finds there. *)
Lemma deleted_path_still_resolves_result :
  let s := handle (Delete "/src") src_recreated in
  files s = [mkNode "1" "lib" Folder "/lib" None (Some [a_txt]) []] /\
  findFileByPath (files s) "/src/a.txt" = Some a_txt.
Proof. vm_compute. split; reflexivity. Qed.

Lemma deleteFromTree_removes_subtree_witness :
  findFileByPath src_project "/src/a.txt" = Some a_txt /\
  findFileByPath (deleteFromTree "/src" src_project) (path a_txt) = None /\
  ~ In (path a_txt) (all_paths (deleteFromTree "/src" src_project)) /\
  ~ In "/src" (all_paths (deleteFromTree "/src" src_project)).
Proof.
  split; [reflexivity|].
  apply (deleteFromTree_removes_subtree "/src" src_project src_folder a_txt).
  - exact src_project_paths_unique.
  - simpl. auto.
  - reflexivity.
  - reflexivity.
  - simpl. auto.
Defined.

(** C3 as stated fails: when [/src] is renamed to its own name, the file
    below it is still below the folder's new path. *)
Lemma rename_to_same_name_keeps_prefix :
  ~ rename_leaves_descendants_behind "/src" "src" src_project.
Proof.
  intros H.
  destruct (H src_folder a_txt) as [_ Hp];
    [simpl; auto|reflexivity|reflexivity|simpl; auto|].
  vm_compute in Hp. discriminate.
Qed.

Lemma renameInTree_is_shallow_witness :
  let renamed := with_name_path src_folder "lib" (renamed_path "/src" "lib") in
  (renamed_path "/src" "lib" = "/lib" /\
   all_paths (renameInTree "/src" "lib" src_project)
     = ["/lib"; "/src/a.txt"; "/App.tsx"]) /\
  In renamed (all_nodes (renameInTree "/src" "lib" src_project)) /\
  map scalars (all_nodes (renameInTree "/src" "lib" src_project)) =
    map (fun n => scalars (retarget "/src" "lib" n)) (all_nodes src_project) /\
  In a_txt (descendants renamed) /\
  In a_txt (all_nodes (renameInTree "/src" "lib" src_project)) /\
  dir_prefix (renamed_path "/src" "lib") (path a_txt) = false.
Proof.
  split; [split; reflexivity|].
  destruct (renameInTree_is_shallow "/src" "lib" src_project src_folder)
    as (H1 & H2 & H3).
  - exact src_project_paths_unique.
  - simpl. auto.
  - reflexivity.
  - reflexivity.
  - destruct (H3 a_txt) as (H4 & H5 & H6); [simpl; auto|].
    split; [exact H1|]. split; [exact H2|]. split; [exact H4|].
    split; [exact H5|].
    apply (H6 "a.txt"); [reflexivity|reflexivity|discriminate].
Defined.

(* ================================================================== *)
(** * Further properties *)

(** ** Lookups follow the depth-first order *)

Lemma find_app {A : Type} (p : A -> bool) (l1 l2 : list A) :
  find p (l1 ++ l2) =
  match find p l1 with Some x => Some x | None => find p l2 end.
Proof.
  induction l1 as [|x l1 IH]; simpl; [reflexivity|].
  destruct (p x); [reflexivity|exact IH].
Qed.

Lemma findFileByPath_preorder_step (q : string) (t : Tree) :
  Forall (fun n => findFileByPath (kids n) q
                   = find (file_at q) (all_nodes (kids n))) t ->
  findFileByPath t q = find (file_at q) (all_nodes t).
Proof.
  intros IH. induction t as [|x t IHt]; [reflexivity|].
  inversion IH as [|x0 t0 Hx Ht]; subst x0 t0.
  rewrite findFileByPath_cons, findFileByPath_node_unfold, all_nodes_cons.
  cbn [find]. fold (is_file x). fold (file_at q x).
  destruct (file_at q x); [reflexivity|].
  rewrite find_app, descendants_nullish. fold (kids x). rewrite <- Hx.
  destruct (findFileByPath (kids x) q); [reflexivity|now apply IHt].
Qed.

Lemma findFileByPath_find (t : Tree) (q : string) :
  findFileByPath t q = find (file_at q) (all_nodes t).
Proof.
  apply findFileByPath_preorder_step. apply Tree_Forall.
  - reflexivity.
  - intros i nm ty p c cs e IH. now apply findFileByPath_preorder_step.
Qed.

(** [findFileByPath] returns the first node, parent before children and
    children in stored order, that is a file and has the path; a folder
    with the path is passed over. *)
Theorem findFileByPath_is_first_in_preorder (t : Tree) (q : string) :
  findFileByPath t q = find (file_at q) (all_nodes t).
Proof.
  apply findFileByPath_preorder_step. apply Tree_Forall.
  - reflexivity.
  - intros i nm ty p c cs e IH. now apply findFileByPath_preorder_step.
Qed.

Lemma findFirstFile_cons (x : FileNode) (t : Tree) :
  findFirstFile (x :: t) =
  match findFirstFile_node x with
  | Some r => Some r
  | None => findFirstFile t
  end.
Proof. reflexivity. Qed.

Lemma findFirstFile_node_unfold (x : FileNode) :
  findFirstFile_node x =
  if is_file x then Some x else findFirstFile (kids x).
Proof.
  destruct x as [i nm [|] p c [[|k ks]|] e]; reflexivity.
Qed.

Lemma findFirstFile_preorder_step (t : Tree) :
  Forall (fun n => findFirstFile (kids n) = find is_file (all_nodes (kids n))) t ->
  findFirstFile t = find is_file (all_nodes t).
Proof.
  intros IH. induction t as [|x t IHt]; [reflexivity|].
  inversion IH as [|x0 t0 Hx Ht]; subst x0 t0.
  rewrite findFirstFile_cons, findFirstFile_node_unfold, all_nodes_cons.
  cbn [find]. destruct (is_file x); [reflexivity|].
  rewrite find_app, descendants_nullish. fold (kids x). rewrite <- Hx.
  destruct (findFirstFile (kids x)); [reflexivity|now apply IHt].
Qed.

Lemma findFirstFile_find (t : Tree) :
  findFirstFile t = find is_file (all_nodes t).
Proof.
  apply findFirstFile_preorder_step. apply Tree_Forall.
  - reflexivity.
  - intros i nm ty p c cs e IH. now apply findFirstFile_preorder_step.
Qed.

(** [findFirstFile] returns the first file in depth-first order, parent
    before children; it is [null] exactly when the tree holds no file. *)
Theorem findFirstFile_is_first_in_preorder (t : Tree) :
  findFirstFile t = find is_file (all_nodes t).
Proof.
  apply findFirstFile_preorder_step. apply Tree_Forall.
  - reflexivity.
  - intros i nm ty p c cs e IH. now apply findFirstFile_preorder_step.
Qed.

(* ------------------------------------------------------------------ *)
(** ** [sanitizeFileTree] once more *)

Lemma sanitize_node_idempotent (n : FileNode) :
  sanitize_node (sanitize_node n) = sanitize_node n.
Proof.
  induction n as [i nm t p c e | i nm t p c cs e IH] using FileNode_ind;
    destruct t; try reflexivity.
  simpl. f_equal. f_equal. rewrite map_map. apply map_ext_in.
  rewrite Forall_forall in IH. exact IH.
Qed.

Lemma sanitizeFileTree_fixpoint (t : Tree) :
  sanitizeFileTree (sanitizeFileTree t) = sanitizeFileTree t.
Proof.
  unfold sanitizeFileTree. rewrite map_map. apply map_ext.
  apply sanitize_node_idempotent.
Qed.

(** Sanitizing a sanitized tree changes nothing: the payload of a write is
    already in the form the next write would give it. *)
Theorem sanitizeFileTree_idempotent (t : Tree) :
  sanitizeFileTree (sanitizeFileTree t) = sanitizeFileTree t.
Proof.
  unfold sanitizeFileTree. rewrite map_map. apply map_ext.
  apply sanitize_node_idempotent.
Qed.

Lemma find_map {A B : Type} (p : B -> bool) (f : A -> B) (l : list A) :
  find p (map f l) = option_map f (find (fun x => p (f x)) l).
Proof.
  induction l as [|x l IH]; simpl; [reflexivity|].
  destruct (p (f x)); [reflexivity|exact IH].
Qed.

Lemma file_at_sanitize_node (q : string) (n : FileNode) :
  file_at q (sanitize_node n) = file_at q n.
Proof.
  destruct n as [i nm t p c [cs|] e]; destruct t; reflexivity.
Qed.

Lemma files_are_leaves_cons (x : FileNode) (t : Tree) :
  files_are_leaves (x :: t) ->
  (type x = File -> children x = None) /\
  files_are_leaves (kids x) /\ files_are_leaves t.
Proof.
  intros H. repeat split.
  - apply H. rewrite all_nodes_cons. now left.
  - intros n Hn. apply H. rewrite all_nodes_cons. right. apply in_or_app.
    left. now rewrite descendants_nullish.
  - intros n Hn. apply H. rewrite all_nodes_cons. right. apply in_or_app.
    now right.
Qed.

Lemma sanitize_all_nodes_step (t : Tree) :
  Forall (fun n => files_are_leaves (kids n) ->
                   all_nodes (sanitizeFileTree (kids n))
                   = map sanitize_node (all_nodes (kids n))) t ->
  files_are_leaves t ->
  all_nodes (sanitizeFileTree t) = map sanitize_node (all_nodes t).
Proof.
  intros IH. induction t as [|x t IHt]; intros Hl; [reflexivity|].
  inversion IH as [|x0 t0 Hx Ht]; subst x0 t0.
  destruct (files_are_leaves_cons x t Hl) as (H1 & H2 & H3).
  change (sanitizeFileTree (x :: t)) with (sanitize_node x :: sanitizeFileTree t).
  rewrite !all_nodes_cons. simpl. rewrite map_app, (IHt Ht H3).
  f_equal. f_equal. rewrite (descendants_nullish x). fold (kids x).
  rewrite <- (Hx H2).
  destruct x as [i nm ty p c [cs|] e]; destruct ty; try reflexivity.
  specialize (H1 eq_refl). discriminate.
Qed.

Lemma sanitize_all_nodes (t : Tree) :
  files_are_leaves t ->
  all_nodes (sanitizeFileTree t) = map sanitize_node (all_nodes t).
Proof.
  apply sanitize_all_nodes_step. apply Tree_Forall.
  - reflexivity.
  - intros i nm ty p c cs e IH. now apply sanitize_all_nodes_step.
Qed.

(** When no file of the tree has children, the payload of a write holds
    the nodes of the tree one for one, and a path finds a file in the
    payload exactly when it finds one in the tree: the same file,
    sanitized. *)
Theorem sanitizeFileTree_keeps_lookups (t : Tree) (q : string) :
  files_are_leaves t ->
  all_nodes (sanitizeFileTree t) = map sanitize_node (all_nodes t) /\
  findFileByPath (sanitizeFileTree t) q
    = option_map sanitize_node (findFileByPath t q).
Proof.
  intros Hl. split; [now apply sanitize_all_nodes|].
  rewrite !findFileByPath_find, sanitize_all_nodes by assumption.
  rewrite find_map. f_equal. clear.
  induction (all_nodes t) as [|x l IH]; simpl; [reflexivity|].
  now rewrite file_at_sanitize_node, IH.
Qed.

Lemma src_project_files_are_leaves : files_are_leaves src_project.
Proof.
  intros n Hn. simpl in Hn. destruct Hn as [<-|[<-|[<-|[]]]]; auto; discriminate.
Qed.

Lemma sanitizeFileTree_keeps_lookups_witness :
  all_nodes (sanitizeFileTree src_project)
    = map sanitize_node (all_nodes src_project) /\
  findFileByPath (sanitizeFileTree src_project) "/App.tsx"
    = option_map sanitize_node (findFileByPath src_project "/App.tsx").
Proof.
  apply (sanitizeFileTree_keeps_lookups src_project "/App.tsx").
  exact src_project_files_are_leaves.
Defined.

(* ------------------------------------------------------------------ *)
(** ** [updateFileContent] once more *)

Lemma updateFileContent_node_twice (target c1 c2 : string) (n : FileNode) :
  updateFileContent_node target c2 (updateFileContent_node target c1 n)
  = updateFileContent_node target c2 n.
Proof.
  induction n as [i nm t p c e | i nm t p c cs e IH] using FileNode_ind;
    simpl; destruct (String.eqb p target) eqn:E; simpl; rewrite ?E; try reflexivity.
  f_equal. f_equal. rewrite map_map. apply map_ext_in.
  rewrite Forall_forall in IH. exact IH.
Qed.

(** Two updates of the same path in a row leave the tree that the second
    alone would give: the last key stroke wins, whatever the tree. *)
Theorem updateFileContent_last_wins (target c1 c2 : string) (t : Tree) :
  updateFileContent target c2 (updateFileContent target c1 t)
  = updateFileContent target c2 t.
Proof.
  unfold updateFileContent. rewrite map_map. apply map_ext.
  apply updateFileContent_node_twice.
Qed.

Lemma all_nodes_cons_frame (n : FileNode) (t : Tree) :
  map frame (all_nodes (n :: t)) =
  frame n :: map frame (descendants n) ++ map frame (all_nodes t).
Proof. rewrite all_nodes_cons. simpl. now rewrite map_app. Qed.

Lemma updateFileContent_frame_step (target newCode : string) (t : Tree) :
  Forall (fun n => map frame (all_nodes (updateFileContent target newCode (kids n)))
                   = map frame (all_nodes (kids n))) t ->
  map frame (all_nodes (updateFileContent target newCode t))
  = map frame (all_nodes t).
Proof.
  intros IH. induction t as [|x t IHt]; [reflexivity|].
  inversion IH as [|x0 t0 Hx Ht]; subst x0 t0.
  change (updateFileContent target newCode (x :: t))
    with (updateFileContent_node target newCode x
            :: updateFileContent target newCode t).
  rewrite !all_nodes_cons_frame, (IHt Ht). f_equal.
  - destruct x as [i nm ty p c [cs|] e]; simpl; destruct (String.eqb p target);
      reflexivity.
  - f_equal. destruct (string_dec (path x) target) as [E|E].
    + now rewrite updateFileContent_node_hit.
    + rewrite updateFileContent_node_miss by assumption.
      rewrite descendants_with_children_map by reflexivity.
      now rewrite Hx, descendants_nullish.
Qed.

(** An update adds, removes and moves no node and touches no property but
    [content]: identifiers, names, types, paths and the properties the
    layout does not know are the same, node for node, in the same order. *)
Theorem updateFileContent_changes_content_only (target newCode : string) (t : Tree) :
  map frame (all_nodes (updateFileContent target newCode t))
  = map frame (all_nodes t).
Proof.
  apply updateFileContent_frame_step. apply Tree_Forall.
  - reflexivity.
  - intros i nm ty p c cs e IH. now apply updateFileContent_frame_step.
Qed.

(* ------------------------------------------------------------------ *)
(** ** Paths that no node has *)

Lemma renameInTree_absent_step (target newName : string) (t : Tree) :
  Forall (fun n => ~ In target (all_paths (kids n)) ->
                   renameInTree target newName (kids n) = kids n) t ->
  ~ In target (all_paths t) -> renameInTree target newName t = t.
Proof.
  intros IH. induction t as [|x t IHt]; [reflexivity|].
  inversion IH as [|x0 t0 Hx Ht]; subst x0 t0.
  rewrite all_paths_cons. intros Hn.
  change (renameInTree target newName (x :: t))
    with (renameInTree_node target newName x :: renameInTree target newName t).
  rewrite IHt; [|assumption|intros H; apply Hn; right; apply in_or_app; now right].
  f_equal. rewrite renameInTree_node_miss by (intros E; apply Hn; now left).
  assert (Hk : ~ In target (all_paths (kids x))).
  { rewrite all_paths_kids. intros H. apply Hn. right. apply in_or_app. now left. }
  specialize (Hx Hk). destruct x as [i nm ty p c [cs|] e]; [|reflexivity].
  unfold kids in Hx. simpl in *. unfold with_children. simpl. now rewrite Hx.
Qed.

Lemma renameInTree_absent (target newName : string) (t : Tree) :
  ~ In target (all_paths t) -> renameInTree target newName t = t.
Proof.
  apply renameInTree_absent_step. apply Tree_Forall.
  - reflexivity.
  - intros i nm ty p c cs e IH. now apply renameInTree_absent_step.
Qed.

Lemma deleteFromTree_absent_step (target : string) (t : Tree) :
  Forall (fun n => ~ In target (all_paths (kids n)) ->
                   deleteFromTree target (kids n) = kids n) t ->
  ~ In target (all_paths t) -> deleteFromTree target t = t.
Proof.
  intros IH. induction t as [|x t IHt]; [reflexivity|].
  inversion IH as [|x0 t0 Hx Ht]; subst x0 t0.
  rewrite all_paths_cons. intros Hn. rewrite deleteFromTree_cons.
  destruct (survives target x) eqn:Es;
    [|apply survives_false in Es; exfalso; apply Hn; now left].
  rewrite IHt; [|assumption|intros H; apply Hn; right; apply in_or_app; now right].
  f_equal.
  assert (Hk : ~ In target (all_paths (kids x))).
  { rewrite all_paths_kids. intros H. apply Hn. right. apply in_or_app. now left. }
  specialize (Hx Hk). destruct x as [i nm ty p c [cs|] e]; [|reflexivity].
  unfold kids in Hx. simpl in Hx. simpl. fold (deleteFromTree target cs).
  now rewrite Hx.
Qed.

Lemma deleteFromTree_absent (target : string) (t : Tree) :
  ~ In target (all_paths t) -> deleteFromTree target t = t.
Proof.
  apply deleteFromTree_absent_step. apply Tree_Forall.
  - reflexivity.
  - intros i nm ty p c cs e IH. now apply deleteFromTree_absent_step.
Qed.

(** When no node of the tree has the path, changing the content at that
    path, renaming it and deleting it all give back a tree equal to the
    input. *)
Theorem missing_path_is_noop (target newCode newName : string) (t : Tree) :
  ~ In target (all_paths t) ->
  updateFileContent target newCode t = t /\
  renameInTree target newName t = t /\
  deleteFromTree target t = t.
Proof.
  intros H. split; [|split].
  - now apply updateFileContent_absent.
  - now apply renameInTree_absent.
  - now apply deleteFromTree_absent.
Qed.

Lemma missing_path_is_noop_witness :
  updateFileContent "/lib/b.txt" "y" src_project = src_project /\
  renameInTree "/lib/b.txt" "c.txt" src_project = src_project /\
  deleteFromTree "/lib/b.txt" src_project = src_project.
Proof.
  apply (missing_path_is_noop "/lib/b.txt" "y" "c.txt" src_project).
  simpl. intuition discriminate.
Defined.

(* ------------------------------------------------------------------ *)
(** ** [deleteFromTree] once more *)

(** Deleting the same path twice is deleting it once. *)
Theorem deleteFromTree_idempotent (target : string) (t : Tree) :
  deleteFromTree target (deleteFromTree target t) = deleteFromTree target t.
Proof. apply deleteFromTree_absent, deleteFromTree_target_gone. Qed.

Lemma doomed_cons (target : string) (x : FileNode) (t : Tree) (n : FileNode) :
  In n (doomed target (x :: t)) <->
  (path x = target /\ In n (subtree x)) \/
  In n (doomed target (kids x)) \/ In n (doomed target t).
Proof.
  unfold doomed. rewrite all_nodes_cons. cbn [filter].
  rewrite filter_app, (descendants_nullish x). fold (kids x).
  destruct (String.eqb (path x) target) eqn:E.
  - apply String.eqb_eq in E. cbn [flat_map]. rewrite flat_map_app, !in_app_iff.
    tauto.
  - apply String.eqb_neq in E. rewrite flat_map_app, in_app_iff. tauto.
Qed.

Lemma spares_step (target : string) (t : Tree) :
  Forall (fun n => spares target (kids n)) t -> spares target t.
Proof.
  intros IH. induction t as [|x t IHt]; [intros n []|].
  inversion IH as [|x0 t0 Hx Ht]; subst x0 t0.
  intros n Hn Hd. rewrite doomed_cons in Hd.
  rewrite all_nodes_cons in Hn. rewrite deleteFromTree_cons.
  assert (Hin : In n (subtree x) \/ In n (all_nodes t)).
  { rewrite subtree_unfold. destruct Hn as [Hn|Hn]; [left; now left|].
    apply in_app_or in Hn. destruct Hn; [left; now right|now right]. }
  destruct (survives target x) eqn:Es.
  - rewrite all_paths_cons, deleteFromTree_node_path,
      deleteFromTree_node_descendants. fold (kids x).
    destruct Hn as [<-|Hn]; [now left|]. right. apply in_or_app.
    apply in_app_or in Hn. destruct Hn as [Hn|Hn].
    + left. rewrite descendants_nullish in Hn. apply Hx; [exact Hn|tauto].
    + right. apply IHt; [assumption|assumption|tauto].
  - apply survives_false in Es. destruct Hin as [Hin|Hin]; [tauto|].
    apply IHt; [assumption|assumption|tauto].
Qed.

(** A node that is neither at the deleted path nor below a node at that
    path is still in the tree, at its old path. *)
Theorem deleteFromTree_spares_the_rest (target : string) (t : Tree) (n : FileNode) :
  In n (all_nodes t) -> ~ In n (doomed target t) ->
  In (path n) (all_paths (deleteFromTree target t)).
Proof.
  revert n. change (spares target t).
  apply spares_step. apply Tree_Forall.
  - intros i nm ty p c e n [].
  - intros i nm ty p c cs e IH. now apply spares_step.
Qed.

Lemma deleteFromTree_spares_the_rest_witness :
  In "/App.tsx" (all_paths (deleteFromTree "/src" src_project)).
Proof.
  apply (deleteFromTree_spares_the_rest "/src" src_project
           (mkNode "3" "App.tsx" File "/App.tsx" None None
              [("_id", "65f0c1"); ("updatedAt", "2024-03-12")])).
  - simpl. auto.
  - simpl. intuition discriminate.
Defined.

Lemma NoDup_app_intro {A : Type} (l1 l2 : list A) :
  NoDup l1 -> NoDup l2 -> (forall x, In x l1 -> ~ In x l2) -> NoDup (l1 ++ l2).
Proof.
  induction l1 as [|a l1 IH]; simpl; intros H1 H2 Hd; [assumption|].
  inversion H1 as [|? ? Hn H1']; subst. constructor.
  - intros Hin. apply in_app_or in Hin. destruct Hin as [Hin|Hin]; [contradiction|].
    apply (Hd a); [now left|assumption].
  - apply IH; try assumption. intros x Hx. apply Hd. now right.
Qed.

Lemma deleteFromTree_NoDup_step (target : string) (t : Tree) :
  Forall (fun n => NoDup (all_paths (kids n)) ->
                   NoDup (all_paths (deleteFromTree target (kids n)))) t ->
  NoDup (all_paths t) -> NoDup (all_paths (deleteFromTree target t)).
Proof.
  intros IH. induction t as [|x t IHt]; intros Hnd; [constructor|].
  inversion IH as [|x0 t0 Hx Ht]; subst x0 t0.
  destruct (NoDup_all_paths_cons _ _ Hnd) as (N1 & N2 & N3 & N4 & N5).
  rewrite deleteFromTree_cons. destruct (survives target x); [|now apply IHt].
  rewrite all_paths_cons, deleteFromTree_node_path,
    deleteFromTree_node_descendants. fold (kids x).
  fold (all_paths (deleteFromTree target (kids x))).
  rewrite <- all_paths_kids in N1, N3, N5.
  constructor.
  - intros Hin. apply in_app_or in Hin.
    destruct Hin as [Hin|Hin]; apply deleteFromTree_paths_incl in Hin; tauto.
  - apply NoDup_app_intro; [now apply Hx|now apply IHt|].
    intros q Hq Hq'. apply deleteFromTree_paths_incl in Hq, Hq'.
    now apply (N5 q).
Qed.

Lemma deleteFromTree_paths_NoDup (target : string) (t : Tree) :
  NoDup (all_paths t) -> NoDup (all_paths (deleteFromTree target t)).
Proof.
  apply deleteFromTree_NoDup_step. apply Tree_Forall.
  - intros; constructor.
  - intros i nm ty p c cs e IH. now apply deleteFromTree_NoDup_step.
Qed.

(** Deleting keeps the paths unique when they were. *)
Theorem deleteFromTree_keeps_paths_unique (target : string) (t : Tree) :
  NoDup (all_paths t) -> NoDup (all_paths (deleteFromTree target t)).
Proof.
  apply deleteFromTree_NoDup_step. apply Tree_Forall.
  - intros; constructor.
  - intros i nm ty p c cs e IH. now apply deleteFromTree_NoDup_step.
Qed.

Lemma deleteFromTree_keeps_paths_unique_witness :
  NoDup (all_paths (deleteFromTree "/src/a.txt" src_project)).
Proof.
  apply (deleteFromTree_keeps_paths_unique "/src/a.txt" src_project).
  exact src_project_paths_unique.
Defined.

(* ------------------------------------------------------------------ *)
(** ** [addToTree] once more *)

Lemma all_nodes_app (t u : Tree) :
  all_nodes (t ++ u) = all_nodes t ++ all_nodes u.
Proof. unfold all_nodes. apply flat_map_app. Qed.

Lemma addToTree_node_hit (parentPath : string) (new x : FileNode) :
  folder_at parentPath x = true ->
  addToTree_node parentPath new x = with_children x (Some (kids x ++ [new])).
Proof.
  unfold folder_at. intros H.
  destruct x as [i nm ty p c [cs|] e]; simpl in *; now rewrite H.
Qed.

Lemma addToTree_node_miss (parentPath : string) (new x : FileNode) :
  parentPath <> "/" -> folder_at parentPath x = false ->
  addToTree_node parentPath new x =
  with_children x (option_map (map (addToTree_node parentPath new)) (children x)).
Proof.
  unfold folder_at. intros Hr H. apply String.eqb_neq in Hr.
  destruct x as [i nm ty p c [cs|] e]; simpl in *; rewrite H, ?Hr; reflexivity.
Qed.

Lemma has_folder_cons (parentPath : string) (x : FileNode) (t : Tree) :
  has_folder parentPath (x :: t) =
  (folder_at parentPath x || has_folder parentPath (kids x)
   || has_folder parentPath t)%bool.
Proof.
  unfold has_folder. rewrite all_nodes_cons. cbn [existsb].
  rewrite existsb_app, descendants_nullish. fold (kids x).
  now rewrite orb_assoc.
Qed.

Lemma findFileByPath_app (t u : Tree) (q : string) :
  findFileByPath (t ++ u) q =
  match findFileByPath t q with
  | Some r => Some r
  | None => findFileByPath u q
  end.
Proof.
  now rewrite !findFileByPath_find, all_nodes_app, find_app.
Qed.

Lemma findFileByPath_new (new : FileNode) :
  type new = File -> findFileByPath [new] (path new) = Some new.
Proof.
  intros H. rewrite findFileByPath_cons, findFileByPath_node_unfold.
  now rewrite String.eqb_refl, H.
Qed.

Lemma finds_new_step (parentPath : string) (new : FileNode) (t : Tree) :
  parentPath <> "/" -> type new = File ->
  Forall (fun n => ~ In (path new) (all_paths (kids n)) ->
            findFileByPath (map (addToTree_node parentPath new) (kids n)) (path new)
            = if has_folder parentPath (kids n) then Some new else None) t ->
  ~ In (path new) (all_paths t) ->
  findFileByPath (map (addToTree_node parentPath new) t) (path new)
  = if has_folder parentPath t then Some new else None.
Proof.
  intros Hr Hty IH. induction t as [|x t IHt]; intros Hn; [reflexivity|].
  inversion IH as [|x0 t0 Hx Ht]; subst x0 t0.
  rewrite all_paths_cons in Hn.
  assert (Hk : ~ In (path new) (all_paths (kids x))).
  { rewrite all_paths_kids. intros H. apply Hn. right. apply in_or_app. now left. }
  assert (Hrest : ~ In (path new) (all_paths t)).
  { intros H. apply Hn. right. apply in_or_app. now right. }
  assert (Hpx : String.eqb (path x) (path new) = false).
  { apply String.eqb_neq. intros E. apply Hn. now left. }
  cbn [map]. rewrite findFileByPath_cons, findFileByPath_node_unfold, has_folder_cons.
  destruct (folder_at parentPath x) eqn:Ef.
  - rewrite addToTree_node_hit by assumption. cbn [path with_children type].
    rewrite Hpx. cbn [andb].
    change (kids (with_children x (Some (kids x ++ [new])))) with (kids x ++ [new]).
    rewrite findFileByPath_app, (findFileByPath_absent _ _ Hk).
    now rewrite findFileByPath_new.
  - rewrite addToTree_node_miss by assumption. cbn [path with_children type].
    rewrite Hpx. cbn [andb orb].
    rewrite kids_with_children_map by reflexivity.
    rewrite (Hx Hk). destruct (has_folder parentPath (kids x)); [reflexivity|].
    cbn [orb]. now apply IHt.
Qed.

Lemma finds_new (parentPath : string) (new : FileNode) (t : Tree) :
  parentPath <> "/" -> type new = File ->
  ~ In (path new) (all_paths t) ->
  findFileByPath (map (addToTree_node parentPath new) t) (path new)
  = if has_folder parentPath t then Some new else None.
Proof.
  intros Hr Hty. apply finds_new_step; try assumption. apply Tree_Forall.
  - reflexivity.
  - intros i nm ty p c cs e IH. now apply finds_new_step.
Qed.

(** Creating a file whose path no node has yet: afterwards the path finds
    the new file if the parent path is the root or the path of some
    folder, and finds nothing otherwise. *)
Theorem addToTree_then_lookup (parentPath : string) (new : FileNode) (t : Tree) :
  type new = File ->
  ~ In (path new) (all_paths t) ->
  findFileByPath (addToTree parentPath new t) (path new)
  = if resolves parentPath t then Some new else None.
Proof.
  intros Hty Hn. unfold addToTree, resolves.
  destruct (String.eqb parentPath "/") eqn:E.
  - cbn [orb]. rewrite findFileByPath_app, (findFileByPath_absent _ _ Hn).
    now apply findFileByPath_new.
  - cbn [orb]. apply String.eqb_neq in E. now apply finds_new.
Qed.

Lemma addToTree_then_lookup_witness :
  findFileByPath
    (addToTree "/src" (newNode "9" "/src" "b.txt" File) src_project) "/src/b.txt"
  = Some (newNode "9" "/src" "b.txt" File).
Proof.
  apply (addToTree_then_lookup "/src" (newNode "9" "/src" "b.txt" File) src_project).
  - reflexivity.
  - simpl. intuition discriminate.
Defined.

Lemma all_paths_app (t u : Tree) :
  all_paths (t ++ u) = all_paths t ++ all_paths u.
Proof. unfold all_paths. now rewrite all_nodes_app, map_app. Qed.

Lemma count_all_paths_cons (q : string) (x : FileNode) (t : Tree) :
  count_occ string_dec (all_paths (x :: t)) q =
  count_occ string_dec [path x] q
  + count_occ string_dec (all_paths (kids x)) q
  + count_occ string_dec (all_paths t) q.
Proof.
  rewrite all_paths_cons, <- all_paths_kids.
  change (path x :: all_paths (kids x) ++ all_paths t)
    with ([path x] ++ all_paths (kids x) ++ all_paths t).
  rewrite !count_occ_app. lia.
Qed.

Lemma addToTree_count_step (parentPath q : string) (new : FileNode) (t : Tree) :
  parentPath <> "/" ->
  Forall (fun n =>
            count_occ string_dec (all_paths (kids n)) q
            + (if has_folder parentPath (kids n)
               then count_occ string_dec (all_paths [new]) q else 0)
            <= count_occ string_dec
                 (all_paths (map (addToTree_node parentPath new) (kids n))) q) t ->
  count_occ string_dec (all_paths t) q
  + (if has_folder parentPath t
     then count_occ string_dec (all_paths [new]) q else 0)
  <= count_occ string_dec (all_paths (map (addToTree_node parentPath new) t)) q.
Proof.
  intros Hr. set (cn := count_occ string_dec (all_paths [new]) q).
  intros IH. induction t as [|x t IHt]; [simpl; lia|].
  inversion IH as [|x0 t0 Hx Ht]; subst x0 t0. specialize (IHt Ht).
  cbn [map]. rewrite !count_all_paths_cons, has_folder_cons.
  destruct (folder_at parentPath x) eqn:Ef.
  - rewrite addToTree_node_hit by assumption.
    change (kids (with_children x (Some (kids x ++ [new])))) with (kids x ++ [new]).
    rewrite all_paths_app, count_occ_app. cbn [path with_children orb].
    fold cn. destruct (has_folder parentPath t); lia.
  - rewrite addToTree_node_miss by assumption.
    rewrite kids_with_children_map by reflexivity. cbn [path with_children orb].
    destruct (has_folder parentPath (kids x)), (has_folder parentPath t);
      cbn [orb]; lia.
Qed.

Lemma addToTree_count (parentPath q : string) (new : FileNode) (t : Tree) :
  parentPath <> "/" ->
  count_occ string_dec (all_paths t) q
  + (if has_folder parentPath t
     then count_occ string_dec (all_paths [new]) q else 0)
  <= count_occ string_dec (all_paths (map (addToTree_node parentPath new) t)) q.
Proof.
  intros Hr. apply addToTree_count_step; [assumption|]. apply Tree_Forall.
  - intros. simpl. lia.
  - intros i nm ty p c cs e IH. now apply addToTree_count_step.
Qed.

(** [addToTree] does not look for a node that already has the new path:
    when it finds a place for the new node and some node has that path
    already, two nodes of the result share it. *)
Theorem addToTree_allows_duplicate_paths
    (parentPath : string) (new : FileNode) (t : Tree) :
  resolves parentPath t = true ->
  In (path new) (all_paths t) ->
  ~ NoDup (all_paths (addToTree parentPath new t)).
Proof.
  intros Hres Hin Hnd.
  assert (H1 : 1 <= count_occ string_dec (all_paths t) (path new)).
  { now apply count_occ_In. }
  assert (H2 : 1 <= count_occ string_dec (all_paths [new]) (path new)).
  { apply count_occ_In. unfold all_paths, all_nodes. simpl.
    rewrite subtree_unfold. now left. }
  assert (H3 : count_occ string_dec (all_paths (addToTree parentPath new t))
                 (path new) <= 1).
  { now apply NoDup_count_occ. }
  unfold addToTree, resolves in *.
  destruct (String.eqb parentPath "/") eqn:E.
  - rewrite all_paths_app, count_occ_app in H3. lia.
  - apply String.eqb_neq in E. cbn [orb] in Hres.
    pose proof (addToTree_count parentPath (path new) new t E) as H4.
    rewrite Hres in H4. lia.
Qed.

Lemma addToTree_allows_duplicate_paths_witness :
  ~ NoDup (all_paths (addToTree "/src" (newNode "9" "/src" "a.txt" File) src_project)).
Proof.
  apply (addToTree_allows_duplicate_paths "/src"
           (newNode "9" "/src" "a.txt" File) src_project).
  - reflexivity.
  - simpl. auto.
Defined.

(* ------------------------------------------------------------------ *)
(** ** Creating, then deleting *)

Lemma filter_map_app {A B : Type} (keep : A -> bool) (f : A -> B) (l1 l2 : list A) :
  filter_map keep f (l1 ++ l2) = filter_map keep f l1 ++ filter_map keep f l2.
Proof.
  induction l1 as [|x l1 IH]; simpl; [reflexivity|].
  destruct (keep x); simpl; now rewrite IH.
Qed.

Lemma deleteFromTree_new (new : FileNode) (t : Tree) :
  ~ In (path new) (all_paths t) ->
  deleteFromTree (path new) (t ++ [new]) = t.
Proof.
  intros H. unfold deleteFromTree. rewrite filter_map_app.
  fold (deleteFromTree (path new) t). rewrite (deleteFromTree_absent _ _ H).
  simpl. unfold survives. rewrite String.eqb_refl. simpl. apply app_nil_r.
Qed.

Lemma deleteFromTree_node_with_children
    (target : string) (x : FileNode) (cs : option Tree) :
  deleteFromTree_node target (with_children x cs) =
  with_children x (option_map (deleteFromTree target) cs).
Proof. destruct cs; reflexivity. Qed.

Lemma with_children_same (x : FileNode) : with_children x (children x) = x.
Proof. now destruct x. Qed.

Lemma undo_create_step (parentPath : string) (new : FileNode) (t : Tree) :
  parentPath <> "/" ->
  Forall (fun n =>
            ~ In (path new) (all_paths (kids n)) ->
            (forall m, In m (all_nodes (kids n)) ->
                       folder_at parentPath m = true -> children m <> None) ->
            deleteFromTree (path new)
              (map (addToTree_node parentPath new) (kids n)) = kids n) t ->
  ~ In (path new) (all_paths t) ->
  (forall m, In m (all_nodes t) ->
             folder_at parentPath m = true -> children m <> None) ->
  deleteFromTree (path new) (map (addToTree_node parentPath new) t) = t.
Proof.
  intros Hr IH. induction t as [|x t IHt]; intros Hn Hc; [reflexivity|].
  inversion IH as [|x0 t0 Hx Ht]; subst x0 t0.
  rewrite all_paths_cons in Hn.
  assert (Hk : ~ In (path new) (all_paths (kids x))).
  { rewrite all_paths_kids. intros H. apply Hn. right. apply in_or_app. now left. }
  assert (Hrest : ~ In (path new) (all_paths t)).
  { intros H. apply Hn. right. apply in_or_app. now right. }
  assert (Hck : forall m, In m (all_nodes (kids x)) ->
                          folder_at parentPath m = true -> children m <> None).
  { intros m Hm. apply Hc. rewrite all_nodes_cons. right. apply in_or_app. left.
    now rewrite descendants_nullish. }
  assert (Hct : forall m, In m (all_nodes t) ->
                          folder_at parentPath m = true -> children m <> None).
  { intros m Hm. apply Hc. rewrite all_nodes_cons. right. apply in_or_app.
    now right. }
  cbn [map]. rewrite deleteFromTree_cons.
  assert (Hs : survives (path new) (addToTree_node parentPath new x) = true).
  { unfold survives. apply negb_true_iff, String.eqb_neq.
    intros E. apply Hn. left. rewrite <- E.
    destruct (folder_at parentPath x) eqn:Ef;
      [rewrite addToTree_node_hit|rewrite addToTree_node_miss]; auto. }
  rewrite Hs, (IHt Ht Hrest Hct). f_equal.
  destruct (folder_at parentPath x) eqn:Ef.
  - rewrite addToTree_node_hit by assumption.
    rewrite deleteFromTree_node_with_children. cbn [option_map].
    rewrite (deleteFromTree_new new (kids x) Hk).
    assert (Hcx : children x <> None).
    { apply Hc; [rewrite all_nodes_cons; now left|assumption]. }
    destruct x as [i nm ty p c [cs|] e]; [reflexivity|].
    exfalso. now apply Hcx.
  - rewrite addToTree_node_miss by assumption.
    rewrite deleteFromTree_node_with_children.
    specialize (Hx Hk Hck).
    destruct x as [i nm ty p c [cs|] e]; [|reflexivity].
    unfold kids in Hx. cbn [children nullish option_map] in *.
    unfold with_children. cbn. now rewrite Hx.
Qed.

(** Deleting a node right after it was created gives back the tree as it
    was before, provided no node had the new path and the folders at the
    parent path have a [children] array. *)
Theorem deleteFromTree_undoes_addToTree
    (parentPath : string) (new : FileNode) (t : Tree) :
  ~ In (path new) (all_paths t) ->
  (forall m, In m (all_nodes t) ->
             folder_at parentPath m = true -> children m <> None) ->
  deleteFromTree (path new) (addToTree parentPath new t) = t.
Proof.
  intros Hn Hc. unfold addToTree.
  destruct (String.eqb parentPath "/") eqn:E.
  - now apply deleteFromTree_new.
  - apply String.eqb_neq in E. apply undo_create_step; try assumption.
    apply Tree_Forall.
    + reflexivity.
    + intros i nm ty p c cs e IH. now apply undo_create_step.
Qed.

Lemma deleteFromTree_undoes_addToTree_witness :
  deleteFromTree "/src/b.txt"
    (addToTree "/src" (newNode "9" "/src" "b.txt" File) src_project)
  = src_project.
Proof.
  apply (deleteFromTree_undoes_addToTree "/src"
           (newNode "9" "/src" "b.txt" File) src_project).
  - simpl. intuition discriminate.
  - simpl. intros m [<-|[<-|[<-|[]]]]; discriminate.
Defined.

(* ------------------------------------------------------------------ *)
(** ** The path of a renamed node *)

Open Scope string_scope.

Lemma split_slash_app (a b : string) :
  split_slash (a ++ String slash b) = (split_slash a ++ split_slash b)%list.
Proof.
  induction a as [|c a IH]; cbn [append split_slash].
  - now rewrite Ascii.eqb_refl.
  - destruct (Ascii.eqb c slash); rewrite IH; [reflexivity|].
    destruct (split_slash a) as [|s0 ss] eqn:E;
      [now apply split_slash_not_nil in E|reflexivity].
Qed.

Lemma split_slash_one (s : string) :
  slash_free s = true -> split_slash s = [s].
Proof.
  induction s as [|c s IH]; cbn [slash_free split_slash]; [reflexivity|].
  intros H. apply andb_true_iff in H. destruct H as [H1 H2].
  apply negb_true_iff in H1. now rewrite H1, (IH H2).
Qed.

Lemma dir_of_snoc (l : list string) (seg : string) :
  l <> [] -> dir_of (l ++ [seg])%list = join_slash l ++ String slash "".
Proof.
  intros Hne. unfold dir_of. rewrite removelast_last.
  induction l as [|a l IH]; [congruence|].
  destruct l as [|b l]; [reflexivity|].
  cbn [fold_right]. rewrite join_slash_cons, string_app_assoc.
  cbn [append]. f_equal. f_equal. apply IH. discriminate.
Qed.

Lemma renamed_path_in_dir (dir seg newName : string) :
  slash_free seg = true ->
  renamed_path (dir ++ String slash seg) newName = dir ++ String slash newName.
Proof.
  intros Hs. unfold renamed_path, set_last.
  rewrite split_slash_app, (split_slash_one seg Hs).
  pose proof (split_slash_not_nil dir) as Hne.
  destruct (split_slash dir ++ [seg])%list as [|a l] eqn:E.
  - destruct (split_slash dir); discriminate.
  - rewrite <- E. rewrite join_replace_last
      by (destruct (split_slash dir); discriminate).
    rewrite (dir_of_snoc _ seg Hne), join_split_slash, string_app_assoc.
    reflexivity.
Qed.

Lemma renamed_path_flat (seg newName : string) :
  slash_free seg = true -> renamed_path seg newName = newName.
Proof.
  intros Hs. unfold renamed_path. now rewrite (split_slash_one seg Hs).
Qed.

(** The new path of a renamed node is its old path with the part after the
    last slash replaced by the new name; a path without a slash is replaced
    by the new name altogether. *)
Theorem renamed_path_replaces_last_segment (dir seg newName : string) :
  slash_free seg = true ->
  renamed_path (dir ++ String slash seg) newName = dir ++ String slash newName /\
  renamed_path seg newName = newName.
Proof.
  intros Hs. split; [now apply renamed_path_in_dir|now apply renamed_path_flat].
Qed.

Lemma renamed_path_replaces_last_segment_witness :
  renamed_path ("/src/ui" ++ String slash "App.tsx") "Main.tsx"
    = "/src/ui" ++ String slash "Main.tsx" /\
  renamed_path "App.tsx" "Main.tsx" = "Main.tsx".
Proof.
  apply (renamed_path_replaces_last_segment "/src/ui" "App.tsx" "Main.tsx").
  reflexivity.
Defined.

Lemma dir_of_shape (p : string) :
  dir_of (split_slash p) = "" \/
  exists d, dir_of (split_slash p) = d ++ String slash "".
Proof.
  destruct (exists_last (split_slash_not_nil p)) as (l & seg & E). rewrite E.
  destruct l as [|a l]; [now left|].
  right. eexists. apply dir_of_snoc. discriminate.
Qed.

(** Renaming back to the old last segment gives the old path. *)
Lemma renamed_path_back (p newName : string) :
  slash_free newName = true ->
  renamed_path (renamed_path p newName) (last (split_slash p) "") = p.
Proof.
  intros Hs. destruct (renamed_path_spec p) as (Hp & Hseg & Hren).
  rewrite Hren. destruct (dir_of_shape p) as [E|(d & E)]; rewrite E in *.
  - cbn [append] in *. rewrite renamed_path_flat by assumption. now symmetry.
  - rewrite string_app_assoc. cbn [append].
    rewrite renamed_path_in_dir by assumption.
    rewrite string_app_assoc in Hp. cbn [append] in Hp. now symmetry.
Qed.

Open Scope list_scope.

(* ------------------------------------------------------------------ *)
(** ** [renameInTree] once more *)

Lemma with_name_path_same (x : FileNode) : with_name_path x (name x) (path x) = x.
Proof. now destruct x. Qed.

Lemma rename_back_step (target newName : string) (t : Tree) :
  renamed_path (renamed_path target newName) (last (split_slash target) "")
    = target ->
  Forall (fun n =>
            ~ In (renamed_path target newName) (all_paths (kids n)) ->
            (forall m, In m (all_nodes (kids n)) -> path m = target ->
                       name m = last (split_slash target) "") ->
            renameInTree (renamed_path target newName)
              (last (split_slash target) "")
              (renameInTree target newName (kids n)) = kids n) t ->
  ~ In (renamed_path target newName) (all_paths t) ->
  (forall m, In m (all_nodes t) -> path m = target ->
             name m = last (split_slash target) "") ->
  renameInTree (renamed_path target newName) (last (split_slash target) "")
    (renameInTree target newName t) = t.
Proof.
  intros Hback IH. induction t as [|x t IHt]; intros Hn Hnm; [reflexivity|].
  inversion IH as [|x0 t0 Hx Ht]; subst x0 t0.
  rewrite all_paths_cons in Hn.
  assert (Hk : ~ In (renamed_path target newName) (all_paths (kids x))).
  { rewrite all_paths_kids. intros H. apply Hn. right. apply in_or_app. now left. }
  assert (Hrest : ~ In (renamed_path target newName) (all_paths t)).
  { intros H. apply Hn. right. apply in_or_app. now right. }
  assert (Hnk : forall m, In m (all_nodes (kids x)) -> path m = target ->
                          name m = last (split_slash target) "").
  { intros m Hm. apply Hnm. rewrite all_nodes_cons. right. apply in_or_app. left.
    now rewrite descendants_nullish. }
  assert (Hnt : forall m, In m (all_nodes t) -> path m = target ->
                          name m = last (split_slash target) "").
  { intros m Hm. apply Hnm. rewrite all_nodes_cons. right. apply in_or_app.
    now right. }
  change (renameInTree target newName (x :: t))
    with (renameInTree_node target newName x :: renameInTree target newName t).
  set (old := last (split_slash target) "") in *.
  set (p' := renamed_path target newName) in *.
  change (renameInTree p' old (renameInTree_node target newName x
                                 :: renameInTree target newName t))
    with (renameInTree_node p' old (renameInTree_node target newName x)
            :: renameInTree p' old (renameInTree target newName t)).
  rewrite (IHt Ht Hrest Hnt). f_equal.
  destruct (string_dec (path x) target) as [E|E].
  - rewrite (renameInTree_node_hit target newName x E). fold p'.
    rewrite renameInTree_node_hit by reflexivity.
    fold p'. rewrite Hback. unfold with_name_path. cbn.
    rewrite <- E, <- (Hnm x); [now destruct x| |assumption].
    rewrite all_nodes_cons. now left.
  - rewrite (renameInTree_node_miss target newName x E).
    rewrite renameInTree_node_miss
      by (cbn [path with_children]; intros E'; apply Hn; left; now rewrite E').
    specialize (Hx Hk Hnk).
    destruct x as [i nm ty p c [cs|] e]; [|reflexivity].
    unfold kids in Hx. cbn [children nullish] in Hx.
    unfold with_children. cbn. now rewrite Hx.
Qed.

(** Renaming a node and then renaming it back to the last segment of its
    old path gives the tree back, provided the new name has no slash, no
    node had the new path, and the node was named after its path. *)
Theorem renameInTree_back_restores (target newName : string) (t : Tree) :
  slash_free newName = true ->
  ~ In (renamed_path target newName) (all_paths t) ->
  (forall m, In m (all_nodes t) -> path m = target ->
             name m = last (split_slash target) "") ->
  renameInTree (renamed_path target newName) (last (split_slash target) "")
    (renameInTree target newName t) = t.
Proof.
  intros Hs. apply rename_back_step; [now apply renamed_path_back|].
  apply Tree_Forall.
  - reflexivity.
  - intros i nm ty p c cs e IH.
    apply rename_back_step; [now apply renamed_path_back|assumption].
Qed.

Lemma renameInTree_back_restores_witness :
  renameInTree "/lib" "src" (renameInTree "/src" "lib" src_project) = src_project.
Proof.
  apply (renameInTree_back_restores "/src" "lib" src_project).
  - reflexivity.
  - simpl. intuition discriminate.
  - simpl. intros m [<-|[<-|[<-|[]]]]; intros; try reflexivity; discriminate.
Defined.

Lemma NoDup_map_on {A B : Type} (f : A -> B) (l : list A) :
  NoDup l ->
  (forall a b, In a l -> In b l -> f a = f b -> a = b) ->
  NoDup (map f l).
Proof.
  induction l as [|x l IH]; simpl; intros Hnd Hinj; [constructor|].
  inversion Hnd as [|? ? Hx Hl]; subst. constructor.
  - intros Hin. apply in_map_iff in Hin. destruct Hin as (y & Hy & Hyl).
    apply Hx. rewrite <- (Hinj y x); auto.
  - apply IH; [assumption|]. intros a b Ha Hb. apply Hinj; now right.
Qed.

Lemma NoDup_map_injective {A B : Type} (f : A -> B) (l : list A) (a b : A) :
  NoDup (map f l) -> In a l -> In b l -> f a = f b -> a = b.
Proof.
  induction l as [|x l IH]; simpl; intros Hnd Ha Hb E; [destruct Ha|].
  inversion Hnd as [|? ? Hx Hl]; subst.
  destruct Ha as [<-|Ha], Hb as [<-|Hb]; auto.
  - exfalso. apply Hx. rewrite E. now apply in_map.
  - exfalso. apply Hx. rewrite <- E. now apply in_map.
Qed.

Lemma renameInTree_paths (target newName : string) (t : Tree) :
  NoDup (all_paths t) ->
  all_paths (renameInTree target newName t)
  = map (retarget_path target (renamed_path target newName)) (all_paths t).
Proof.
  intros Hnd. pose proof (renameInTree_rescalars target newName t Hnd) as H.
  apply (f_equal (map (fun sc : string * string * NodeType * string
                                * option string * list (string * string) =>
                         snd (fst (fst sc))))) in H.
  rewrite !map_map in H. cbn [scalars fst snd] in H.
  unfold all_paths. etransitivity; [exact H|].
  rewrite map_map. apply map_ext. intros n.
  unfold retarget, retarget_path. now destruct (String.eqb (path n) target).
Qed.

(** [renameInTree] does not look for a node that already has the new path.
    In a tree with unique paths that has a node at [target], the renamed
    tree has unique paths exactly when the new path is the old one or no
    node had it. *)
Theorem renameInTree_paths_unique_iff (target newName : string) (t : Tree) :
  NoDup (all_paths t) -> In target (all_paths t) ->
  (NoDup (all_paths (renameInTree target newName t)) <->
   renamed_path target newName = target \/
   ~ In (renamed_path target newName) (all_paths t)).
Proof.
  intros Hnd Hin. rewrite (renameInTree_paths target newName t Hnd).
  set (p' := renamed_path target newName). split.
  - intros Hm. destruct (string_dec p' target) as [E|E]; [now left|].
    right. intros Hp'.
    apply E. symmetry.
    apply (NoDup_map_injective (retarget_path target p') (all_paths t));
      try assumption.
    unfold retarget_path. rewrite String.eqb_refl.
    apply String.eqb_neq in E. now rewrite E.
  - intros H. apply NoDup_map_on; [assumption|].
    intros a b Ha Hb. unfold retarget_path.
    destruct (String.eqb a target) eqn:Ea, (String.eqb b target) eqn:Eb;
      try apply String.eqb_eq in Ea; try apply String.eqb_eq in Eb;
      intros E; subst; try reflexivity.
    + destruct H as [H|H]; [congruence|contradiction].
    + destruct H as [H|H]; [congruence|contradiction].
Qed.

Lemma renameInTree_paths_unique_iff_witness :
  (NoDup (all_paths (renameInTree "/src" "App.tsx" src_project)) <->
   renamed_path "/src" "App.tsx" = "/src" \/
   ~ In (renamed_path "/src" "App.tsx") (all_paths src_project)) /\
  ~ NoDup (all_paths (renameInTree "/src" "App.tsx" src_project)).
Proof.
  assert (H : NoDup (all_paths (renameInTree "/src" "App.tsx" src_project)) <->
              renamed_path "/src" "App.tsx" = "/src" \/
              ~ In (renamed_path "/src" "App.tsx") (all_paths src_project)).
  { apply (renameInTree_paths_unique_iff "/src" "App.tsx" src_project).
    - exact src_project_paths_unique.
    - simpl. auto. }
  split; [exact H|]. intros Hnd. apply H in Hnd.
  destruct Hnd as [E|Hn]; [discriminate E|]. apply Hn. simpl. auto.
Defined.

(* ------------------------------------------------------------------ *)
(** ** The rebinding effect once more *)

Lemma option_string_eqb_refl (a : option string) : option_string_eqb a a = true.
Proof. destruct a; simpl; [apply String.eqb_refl|reflexivity]. Qed.

Lemma option_string_eqb_eq (a b : option string) :
  option_string_eqb a b = true -> a = b.
Proof.
  destruct a, b; simpl; try discriminate; [|reflexivity].
  intros H. apply String.eqb_eq in H. now subst.
Qed.

(** A node that the tree finds at its own path is left alone by the
    effect. *)
Lemma reconcile_found_self (t : Tree) (r : FileNode) :
  findFileByPath t (path r) = Some r -> reconcile t (Some r) = Some r.
Proof.
  intros H. unfold reconcile. now rewrite H, option_string_eqb_refl.
Qed.

(** Running the rebinding effect a second time changes nothing: the
    [setCurrentFile] inside the effect cannot make it run for ever. *)
Theorem reconcile_idempotent (t : Tree) (cf : option FileNode) :
  reconcile t (reconcile t cf) = reconcile t cf.
Proof.
  destruct cf as [cur|]; [|reflexivity].
  destruct (findFileByPath t (path cur)) as [latest|] eqn:E.
  - destruct (negb (option_string_eqb (content latest) (content cur))) eqn:Ec.
    + assert (H : reconcile t (Some cur) = Some latest).
      { unfold reconcile. now rewrite E, Ec. }
      rewrite H. apply reconcile_found_self.
      destruct (findFileByPath_Some _ _ _ E) as (_ & Hp & _). now rewrite Hp.
    + assert (H : reconcile t (Some cur) = Some cur).
      { unfold reconcile. now rewrite E, Ec. }
      now rewrite H.
  - assert (H : reconcile t (Some cur) = Some cur).
    { unfold reconcile. now rewrite E. }
    now rewrite H.
Qed.

(** When the path of the current file finds a file in the tree, the effect
    leaves a current file with the same path whose content is the one the
    tree holds. *)
Theorem reconcile_takes_content_of_tree (t : Tree) (cur latest : FileNode) :
  findFileByPath t (path cur) = Some latest ->
  exists r,
    reconcile t (Some cur) = Some r /\
    path r = path cur /\ content r = content latest.
Proof.
  intros E. unfold reconcile. rewrite E.
  destruct (negb (option_string_eqb (content latest) (content cur))) eqn:Ec.
  - exists latest. destruct (findFileByPath_Some _ _ _ E) as (_ & Hp & _). auto.
  - exists cur. apply negb_false_iff, option_string_eqb_eq in Ec. auto.
Qed.

Lemma reconcile_takes_content_of_tree_witness :
  exists r,
    reconcile src_project (Some (with_content a_txt (Some "stale"))) = Some r /\
    path r = "/src/a.txt" /\ content r = Some "x".
Proof.
  apply (reconcile_takes_content_of_tree src_project
           (with_content a_txt (Some "stale")) a_txt).
  reflexivity.
Defined.

(** With unique paths the effect leaves the first top-level node alone,
    whatever its type. *)
Lemma reconcile_head (t : Tree) :
  NoDup (all_paths t) -> reconcile t (hd_error t) = hd_error t.
Proof.
  destruct t as [|x t]; [reflexivity|]. intros Hnd. cbn [hd_error].
  destruct (NoDup_all_paths_cons _ _ Hnd) as (N1 & N2 & _).
  unfold reconcile.
  rewrite findFileByPath_cons, findFileByPath_node_unfold, String.eqb_refl.
  cbn [andb]. destruct (NodeType_eqb (type x) File).
  - now rewrite option_string_eqb_refl.
  - rewrite findFileByPath_absent by now rewrite all_paths_kids.
    now rewrite findFileByPath_absent.
Qed.

(** The first file of a tree is the file that its own path finds. *)
Lemma findFirstFile_found_by_path (t : Tree) (f : FileNode) :
  findFirstFile t = Some f -> findFileByPath t (path f) = Some f.
Proof.
  rewrite findFirstFile_find, findFileByPath_find.
  induction (all_nodes t) as [|x l IH]; cbn [find]; [discriminate|].
  unfold file_at at 1. destruct (is_file x) eqn:Ex.
  - intros [= <-]. now rewrite String.eqb_refl.
  - rewrite andb_false_r. exact IH.
Qed.

(* ------------------------------------------------------------------ *)
(** ** What the handlers leave in the tree and in the current file *)

Lemma files_changed_view (x : State) :
  files (files_changed x) = files x /\
  currentFile (files_changed x) = reconcile (files x) (currentFile x) /\
  projectId (files_changed x) = projectId x.
Proof.
  unfold files_changed, rebind_effect, persist_effect.
  destruct (persist_cleanup x); cbn;
    destruct (projectId x) as [pid|] eqn:Ep; cbn; auto;
    destruct (falsy pid); cbn; auto;
    destruct (files x) eqn:Ef; cbn; rewrite ?Ef; auto.
Qed.

(** Loading a project makes its first file, in depth-first order, the
    current file; the effects that follow leave it in place. *)
Theorem seed_selects_first_file (pid : option string) (tree : Tree) (s : State) :
  files (seed pid tree s) = tree /\
  currentFile (seed pid tree s) = find is_file (all_nodes tree) /\
  projectId (seed pid tree s)
    = match pid with Some p => Some p | None => projectId s end.
Proof.
  unfold seed.
  destruct (files_changed_view
              (set_currentFile (findFirstFile tree)
                 (set_files tree
                    match pid with
                    | Some p => set_projectId (Some p) s
                    | None => s
                    end))) as (Hf & Hc & Hp).
  rewrite Hf, Hc, Hp. cbn [files currentFile projectId set_files set_currentFile].
  split; [reflexivity|]. split; [|now destruct pid].
  rewrite <- findFirstFile_find.
  destruct (findFirstFile tree) as [f|] eqn:E; [|reflexivity].
  apply reconcile_found_self. now apply findFirstFile_found_by_path.
Qed.

(** Selecting a folder does nothing.  Selecting a file makes the file that
    the tree holds at that path the current one, or the file handed in
    when the tree holds none; the rebinding effect never replaces it, and
    nothing else in the state moves. *)
Theorem handleFileSelect_result (file : FileNode) (s : State) :
  handleFileSelect file s =
  match type file with
  | File =>
      set_currentFile
        (Some (nullish (findFileByPath (files s) (path file)) file)) s
  | Folder => s
  end.
Proof.
  unfold handleFileSelect. destruct (type file); [|reflexivity].
  destruct (path_changed _ _); [|reflexivity].
  unfold rebind_effect, set_currentFile.
  cbn [files currentFile projectId saveError lastSaved clock timers
       next_timer persist_cleanup writes inflight].
  f_equal. destruct (findFileByPath (files s) (path file)) as [l|] eqn:E;
    cbn [nullish].
  - apply reconcile_found_self.
    destruct (findFileByPath_Some _ _ _ E) as (_ & Hp & _). now rewrite Hp.
  - unfold reconcile. now rewrite E.
Qed.

(** Deleting the path of the current file makes the first top-level node
    that is left the current one, whatever its type, and leaves no current
    file when nothing is left. *)
Theorem handleFileDelete_falls_back_to_first_node (target : string) (s : State) :
  NoDup (all_paths (files s)) ->
  path_is target (currentFile s) = true ->
  files (handleFileDelete target s) = deleteFromTree target (files s) /\
  currentFile (handleFileDelete target s)
    = hd_error (deleteFromTree target (files s)).
Proof.
  intros Hnd Hp. unfold handleFileDelete. rewrite Hp.
  destruct (files_changed_view
              (set_currentFile (hd_error (deleteFromTree target (files s)))
                 (set_files (deleteFromTree target (files s)) s)))
    as (Hf & Hc & _).
  rewrite Hf, Hc. cbn [files currentFile set_files set_currentFile].
  split; [reflexivity|].
  apply reconcile_head. now apply deleteFromTree_paths_NoDup.
Qed.

Lemma handleFileDelete_falls_back_to_first_node_witness :
  let s := handle (Select (file_node "3" "App.tsx" "/App.tsx" ""))
             (run [Seed (Some "p1")
                     [file_node "3" "App.tsx" "/App.tsx" ""; src_folder]] initial) in
  files (handleFileDelete "/App.tsx" s) = [src_folder] /\
  currentFile (handleFileDelete "/App.tsx" s) = Some src_folder.
Proof.
  apply (handleFileDelete_falls_back_to_first_node "/App.tsx"
           (handle (Select (file_node "3" "App.tsx" "/App.tsx" ""))
              (run [Seed (Some "p1")
                      [file_node "3" "App.tsx" "/App.tsx" ""; src_folder]] initial))).
  - vm_compute. repeat constructor; simpl; intuition discriminate.
  - vm_compute. reflexivity.
Defined.

(** A key stroke in the editor: when the current file is a file of the
    tree (paths unique), the tree afterwards holds the typed text at that
    path, the current file holds it too, and no node has moved. *)
Theorem handleCodeChange_keeps_tree_and_editor_in_step
    (newCode : string) (s : State) (cur n : FileNode) :
  NoDup (all_paths (files s)) ->
  currentFile s = Some cur -> type cur = File ->
  In n (all_nodes (files s)) -> path n = path cur -> type n = File ->
  let s' := handle (CodeChange newCode) s in
  findFileByPath (files s') (path cur) = Some (with_content n (Some newCode)) /\
  currentFile s' = Some (with_content cur (Some newCode)) /\
  all_paths (files s') = all_paths (files s).
Proof.
  intros Hnd Hc Hty Hn Hp Htn. cbv zeta. cbn [handle].
  unfold editor_mounted, handleCodeChange. rewrite Hc, Hty. cbn [NodeType_eqb].
  destruct (files_changed_view
              (set_currentFile (Some (with_content cur (Some newCode)))
                 (set_files (updateFileContent (path cur) newCode (files s)) s)))
    as (Hf & Hcf & _).
  rewrite Hf, Hcf. cbn [files currentFile set_files set_currentFile].
  assert (Hfind : findFileByPath (updateFileContent (path cur) newCode (files s))
                    (path cur) = Some (with_content n (Some newCode))).
  { assert (Hin : In (with_content n (Some newCode))
                    (all_nodes (updateFileContent (path cur) newCode (files s)))).
    { now apply updateFileContent_updates_node. }
    assert (Hnd' : NoDup (all_paths
                            (updateFileContent (path cur) newCode (files s)))).
    { now rewrite updateFileContent_paths. }
    rewrite <- Hp at 2.
    apply (findFileByPath_unique _ (with_content n (Some newCode)) Hnd' Hin Htn). }
  split; [exact Hfind|]. split; [|apply updateFileContent_paths].
  unfold reconcile. cbn [path with_content]. rewrite Hfind.
  cbn [content with_content]. now rewrite option_string_eqb_refl.
Qed.

Lemma handleCodeChange_keeps_tree_and_editor_in_step_witness :
  let s' := handle (CodeChange "y") src_loaded in
  findFileByPath (files s') (path a_txt) = Some (with_content a_txt (Some "y")) /\
  currentFile s' = Some (with_content a_txt (Some "y")) /\
  all_paths (files s') = all_paths (files src_loaded).
Proof.
  apply (handleCodeChange_keeps_tree_and_editor_in_step "y" src_loaded a_txt a_txt).
  - vm_compute. repeat constructor; simpl; intuition discriminate.
  - reflexivity.
  - reflexivity.
  - vm_compute. auto.
  - reflexivity.
  - reflexivity.
Defined.

Lemma renameInTree_moves_target_away (target newName : string) (t : Tree) :
  NoDup (all_paths t) -> renamed_path target newName <> target ->
  ~ In target (all_paths (renameInTree target newName t)).
Proof.
  intros Hnd Hne. rewrite (renameInTree_paths target newName t Hnd).
  intros Hin. apply in_map_iff in Hin. destruct Hin as (q & Hq & _).
  unfold retarget_path in Hq. destruct (String.eqb q target) eqn:E.
  - contradiction.
  - apply String.eqb_neq in E. contradiction.
Qed.

(** Renaming the current file when the renamed node is not found at the
    top level under its new name (it is nested, say): the current file
    keeps its old path, which the tree no longer has, and from then on key
    strokes in the editor leave the tree as it is. *)
Theorem handleFileRename_strands_nested_current_file
    (target newName : string) (s : State) (cur : FileNode) :
  NoDup (all_paths (files s)) ->
  currentFile s = Some cur -> path cur = target ->
  renamed_path target newName <> target ->
  find (fun f => String.eqb (name f) newName)
       (renameInTree target newName (files s)) = None ->
  let s' := handleFileRename target newName s in
  currentFile s' = Some cur /\
  findFileByPath (files s') (path cur) = None /\
  forall newCode, files (handle (CodeChange newCode) s') = files s'.
Proof.
  intros Hnd Hc Hp Hne Hfind. cbv zeta. unfold handleFileRename.
  rewrite Hc. cbn [path_is]. rewrite Hp, String.eqb_refl, Hfind.
  destruct (files_changed_view
              (set_files (renameInTree target newName (files s)) s))
    as (Hf & Hcf & _).
  set (s' := files_changed (set_files (renameInTree target newName (files s)) s))
    in *.
  cbn [files currentFile set_files] in Hf, Hcf.
  assert (Hgone : ~ In target (all_paths (files s'))).
  { rewrite Hf. now apply renameInTree_moves_target_away. }
  assert (Hnone : findFileByPath (files s') target = None).
  { now apply findFileByPath_absent. }
  assert (Hcur : currentFile s' = Some cur).
  { rewrite Hcf, Hc. unfold reconcile. rewrite Hp, <- Hf, Hnone. reflexivity. }
  split; [exact Hcur|]. split; [exact Hnone|].
  intros newCode. cbn [handle]. destruct (editor_mounted s'); [|reflexivity].
  unfold handleCodeChange. rewrite Hcur.
  destruct (files_changed_view
              (set_currentFile (Some (with_content cur (Some newCode)))
                 (set_files (updateFileContent (path cur) newCode (files s')) s')))
    as (Hf' & _).
  rewrite Hf'. cbn [files set_files set_currentFile].
  rewrite Hp. now apply updateFileContent_absent.
Qed.

Lemma handleFileRename_strands_nested_current_file_witness :
  let s' := handleFileRename "/src/a.txt" "b.txt" src_loaded in
  currentFile s' = Some a_txt /\
  findFileByPath (files s') (path a_txt) = None /\
  forall newCode, files (handle (CodeChange newCode) s') = files s'.
Proof.
  apply (handleFileRename_strands_nested_current_file
           "/src/a.txt" "b.txt" src_loaded a_txt).
  - vm_compute. repeat constructor; simpl; intuition discriminate.
  - reflexivity.
  - reflexivity.
  - discriminate.
  - reflexivity.
Defined.

(* ------------------------------------------------------------------ *)
(** ** What time brings *)

(** However long the component is left alone, at most one write of the
    tree goes out; it goes to the identifier that is bound and carries the sanitized
    tree of the moment, which is not empty. *)
Theorem waiting_sends_at_most_the_current_tree (s : State) (d : nat) :
  reachable s ->
  writes (advance d s) = writes s \/
  exists pid t,
    projectId s = Some pid /\ falsy pid = false /\ files s <> [] /\
    clock s < t /\ t <= clock s + d /\
    writes (advance d s)
      = writes s ++ [mkWrite t pid (sanitizeFileTree (files s))].
Proof.
  intros Hr. destruct (reachable_inv s Hr) as [_ [Ht|(e & Ht & Hc)]].
  - left. now rewrite advance_idle by (rewrite Ht; intros ? []).
  - destruct Hc as (_ & Hf & Hne & Hp & Hfal & Hlt & _).
    destruct (Nat.le_gt_cases (due (snd e)) (clock s + d)) as [Hle|Hgt].
    + right. exists (t_projectId (snd e)), (due (snd e)).
      rewrite (advance_fires d s e Ht Hlt Hle). cbn. rewrite Hf. auto 10.
    + left. now rewrite advance_idle by (rewrite Ht; intros ? [<-|[]]; lia).
Qed.

Lemma waiting_sends_at_most_the_current_tree_witness :
  writes (advance 5000 src_edited) = writes src_edited \/
  exists pid t,
    projectId src_edited = Some pid /\ falsy pid = false /\
    files src_edited <> [] /\
    clock src_edited < t /\ t <= clock src_edited + 5000 /\
    writes (advance 5000 src_edited)
      = writes src_edited ++ [mkWrite t pid (sanitizeFileTree (files src_edited))].
Proof.
  apply (waiting_sends_at_most_the_current_tree src_edited 5000).
  exists [Seed (Some "p1") [src_folder]; CodeChange "y"; Advance 300;
          Rename "/src" "lib"; Advance 1199; CodeChange "z"].
  vm_compute. reflexivity.
Defined.

(* ------------------------------------------------------------------ *)
(** ** Where the requests go and what they carry *)

Lemma well_addressed_tick (s : State) :
  inv s -> (forall w, In w (writes s) -> well_addressed w) ->
  forall w, In w (writes (tick s)) -> well_addressed w.
Proof.
  intros [_ [Ht|(e & Ht & Hc)]] Hw.
  - now rewrite tick_idle by (rewrite Ht; intros ? []).
  - destruct Hc as (_ & _ & _ & _ & Hfal & Hlt & _).
    destruct (Nat.eq_dec (due (snd e)) (S (clock s))) as [E|E].
    + rewrite (tick_fires s e Ht E). cbn. intros w Hin.
      apply in_app_or in Hin. destruct Hin as [Hin|[<-|[]]]; [now apply Hw|].
      split; [exact Hfal|apply sanitizeFileTree_fixpoint].
    + now rewrite tick_idle by (rewrite Ht; intros ? [<-|[]]; lia).
Qed.

(** What an event other than the passing of time leaves alone: the
    requests, the clock and, unless the event binds one, the identifier;
    the timers are as they were or are those the persist effect arms at
    this instant. *)
Lemma handle_frame (e : Event) (s : State) :
  inv s ->
  match e with
  | Advance _ => True
  | _ =>
      writes (handle e s) = writes s /\
      clock (handle e s) = clock s /\
      (binds e = false -> projectId (handle e s) = projectId s) /\
      (timers (handle e s) = timers s \/
       exists p f n, timers (handle e s) = armed p f (clock s) n)
  end.
Proof.
  intros Hi.
  assert (G : forall x, timers x = timers s ->
                        persist_cleanup x = persist_cleanup s ->
                        writes x = writes s -> clock x = clock s ->
                        writes (files_changed x) = writes s /\
                        clock (files_changed x) = clock s /\
                        projectId (files_changed x) = projectId x /\
                        (timers (files_changed x) = timers s \/
                         exists p f n,
                           timers (files_changed x) = armed p f (clock s) n)).
  { intros x Ht Hc Hw Hk.
    assert (Hsx : single_timer x).
    { destruct (inv_single_timer s Hi) as [H|(t & H1 & H2)];
        [left|right; exists t; split]; congruence. }
    destruct (files_changed_spec x Hsx) as (Ht' & _ & _ & Hp' & Hk' & Hw' & _).
    rewrite Hw', Hk', Hp', Ht', Hk. repeat split; auto.
    right. now exists (projectId x), (files x), (next_timer x). }
  assert (G' : forall x, timers x = timers s ->
                         persist_cleanup x = persist_cleanup s ->
                         writes x = writes s -> clock x = clock s ->
                         projectId x = projectId s ->
                         forall b : bool,
                         writes (files_changed x) = writes s /\
                         clock (files_changed x) = clock s /\
                         (b = false -> projectId (files_changed x) = projectId s) /\
                         (timers (files_changed x) = timers s \/
                          exists p f n,
                            timers (files_changed x) = armed p f (clock s) n)).
  { intros x Ht Hc Hw Hk Hp b.
    destruct (G x Ht Hc Hw Hk) as (G1 & G2 & G3 & G4).
    repeat split; auto. intros _. congruence. }
  destruct e as [c|f|st pp nm ty|tg|tg nn|pid tr|tpl|ms|r]; cbn [handle]; auto.
  - destruct (editor_mounted s); [|now auto]. unfold handleCodeChange.
    destruct (currentFile s); [|now auto]. now apply G'.
  - unfold handleFileSelect. destruct (type f); [|now auto].
    destruct (path_changed _ _); cbn; auto.
  - unfold handleFileCreate. destruct ty; now apply G'.
  - unfold handleFileDelete. destruct (path_is tg (currentFile s));
      now apply G'.
  - unfold handleFileRename. destruct (path_is tg (currentFile s));
      [destruct (find _ _)|]; now apply G'.
  - unfold seed. destruct pid as [p|].
    + destruct (G (set_currentFile (findFirstFile tr)
                     (set_files tr (set_projectId (Some p) s))))
        as (G1 & G2 & G3 & G4); auto.
      repeat split; auto. discriminate.
    + now apply G'.
  - unfold loadTemplate. now apply G'.
  - destruct (settle_same_schedule r s) as (H1 & H2 & H3).
    repeat split; auto. intros _. unfold settle.
    destruct (inflight s); [reflexivity|]. now destruct r.
Qed.

Lemma well_addressed_run (es : list Event) (s : State) :
  inv s -> (forall w, In w (writes s) -> well_addressed w) ->
  forall w, In w (writes (run es s)) -> well_addressed w.
Proof.
  revert s. induction es as [|e es IH]; intros s Hi Hw; [exact Hw|].
  apply IH; [now apply inv_handle|].
  pose proof (handle_frame e s Hi) as Hh.
  destruct e as [c|f|st pp nm ty|tg|tg nn|pid tr|tpl|ms|r];
    try (destruct Hh as (Hh & _); rewrite Hh; exact Hw).
  cbn [handle]. clear IH Hh. revert s Hi Hw.
  induction ms as [|k IHk]; intros s Hi Hw; [exact Hw|].
  cbn [advance]. apply IHk; [now apply inv_tick|now apply well_addressed_tick].
Qed.

(** Every write of the tree that the persist effect ever sends goes to an
    identifier that is not empty and carries a tree that sanitizing would
    not change. *)
Theorem writes_are_well_addressed (s : State) (w : WriteReq) :
  reachable s -> In w (writes s) -> well_addressed w.
Proof.
  intros (es & ->). apply well_addressed_run.
  - split; [intros ? []|now left].
  - intros ? [].
Qed.

Lemma writes_are_well_addressed_witness :
  well_addressed (mkWrite 1200 "p1" [src_folder]).
Proof.
  apply (writes_are_well_addressed src_writing (mkWrite 1200 "p1" [src_folder])).
  - exists [Seed (Some "p1") [src_folder]; Advance 1200]. vm_compute. reflexivity.
  - vm_compute. auto.
Defined.

(* ------------------------------------------------------------------ *)
(** ** The pace of the requests *)

Lemma spaced_snoc (ws : list WriteReq) (w : WriteReq) :
  spaced ws ->
  (forall w', In w' ws -> w_time w' + quiet_period <= w_time w) ->
  spaced (ws ++ [w]).
Proof.
  induction ws as [|x ws IH]; intros Hs Hw; cbn [app spaced].
  - split; [intros ? []|exact I].
  - destruct Hs as (H1 & H2). split.
    + intros w' Hin. apply in_app_or in Hin.
      destruct Hin as [Hin|[<-|[]]]; [now apply H1|apply Hw; now left].
    + apply IH; [exact H2|]. intros w' Hin. apply Hw. now right.
Qed.

Lemma spaced_app_r (ws1 ws2 : list WriteReq) :
  spaced (ws1 ++ ws2) -> spaced ws2.
Proof.
  induction ws1 as [|x ws1 IH]; [auto|]. intros (_ & H). now apply IH.
Qed.

Lemma paced_tick (s : State) : inv s -> paced s -> paced (tick s).
Proof.
  intros [_ [Ht|(e & Ht & Hc)]] (P1 & P2 & P3).
  - rewrite tick_idle by (rewrite Ht; intros ? []).
    repeat split; cbn; auto;
      try (intros w Hw; specialize (P2 w Hw); lia).
  - destruct Hc as (_ & _ & _ & _ & _ & Hlt & _).
    destruct (Nat.eq_dec (due (snd e)) (S (clock s))) as [E|E].
    + rewrite (tick_fires s e Ht E). unfold paced.
      cbn [fire set_timers set_clock writes clock timers]. repeat split.
      * apply spaced_snoc; [exact P1|]. cbn. intros w' Hin. rewrite <- E.
        apply (P3 e w'); [rewrite Ht; now left|exact Hin].
      * intros w Hin. apply in_app_or in Hin.
        destruct Hin as [Hin|[<-|[]]]; [specialize (P2 w Hin); lia|cbn; lia].
      * intros ? ? [].
    + rewrite tick_idle by (rewrite Ht; intros ? [<-|[]]; lia).
      repeat split; cbn; auto;
      try (intros w Hw; specialize (P2 w Hw); lia).
Qed.

Lemma paced_advance (d : nat) (s : State) :
  inv s -> paced s -> paced (advance d s).
Proof.
  revert s. induction d as [|d IH]; intros s Hi Hp; [exact Hp|].
  cbn [advance]. apply IH; [now apply inv_tick|now apply paced_tick].
Qed.

Lemma paced_handle (e : Event) (s : State) :
  inv s -> paced s -> paced (handle e s).
Proof.
  intros Hi (P1 & P2 & P3). pose proof (handle_frame e s Hi) as Hh.
  destruct e as [c|f|st pp nm ty|tg|tg nn|pid tr|tpl|ms|r];
    try (destruct Hh as (Hw & Hk & _ & Ht); unfold paced;
         rewrite Hw, Hk; repeat split; auto;
         destruct Ht as [->|(p & fs & n & ->)]; [exact P3|];
         intros e w He Hin;
         destruct (armed_cases p fs (clock s) n) as [Ha|(p' & _ & _ & _ & Ha)];
         rewrite Ha in He; [destruct He|];
         destruct He as [<-|[]]; cbn; specialize (P2 w Hin); lia).
  cbn [handle]. now apply paced_advance.
Qed.

Lemma paced_run (es : list Event) (s : State) :
  inv s -> paced s -> paced (run es s).
Proof.
  revert s. induction es as [|e es IH]; intros s Hi Hp; [exact Hp|].
  apply IH; [now apply inv_handle|now apply paced_handle].
Qed.

(** Any two writes of the tree that the persist effect sends are at least
    a quiet period apart, whatever happened in between. *)
Theorem writes_are_a_quiet_period_apart
    (s : State) (ws1 ws2 ws3 : list WriteReq) (w1 w2 : WriteReq) :
  reachable s ->
  writes s = ws1 ++ w1 :: ws2 ++ w2 :: ws3 ->
  w_time w1 + quiet_period <= w_time w2.
Proof.
  intros (es & ->) Hw.
  assert (Hp : paced (run es initial)).
  { apply paced_run.
    - split; [intros ? []|now left].
    - repeat split; cbn; intros; contradiction. }
  destruct Hp as (Hs & _). rewrite Hw in Hs.
  apply spaced_app_r in Hs. destruct Hs as (Hs & _).
  apply Hs. apply in_or_app. right. now left.
Qed.

Lemma writes_are_a_quiet_period_apart_witness :
  w_time (mkWrite 1200 "p1" [src_folder]) + quiet_period
  <= w_time (mkWrite 2500 "p1"
               (updateFileContent "/src/a.txt" "y" [src_folder])).
Proof.
  apply (writes_are_a_quiet_period_apart
           (run [Seed (Some "p1") [src_folder]; Advance 1300;
                 CodeChange "y"; Advance 1200] initial)
           [] [] []).
  - now exists [Seed (Some "p1") [src_folder]; Advance 1300;
                CodeChange "y"; Advance 1200].
  - vm_compute. reflexivity.
Defined.

(* ------------------------------------------------------------------ *)
(** ** Without a project *)

Lemma unbound_step (e : Event) (s : State) :
  inv s -> projectId s = None -> binds e = false ->
  projectId (handle e s) = None /\ writes (handle e s) = writes s.
Proof.
  intros Hi Hp Hb. pose proof (handle_frame e s Hi) as Hh.
  destruct e as [c|f|st pp nm ty|tg|tg nn|pid tr|tpl|ms|r];
    try (destruct Hh as (Hw & _ & Hq & _); rewrite Hw, (Hq Hb); now split).
  cbn [handle]. destruct Hi as [_ [Ht|(e & _ & Hc)]].
  - rewrite advance_idle by (rewrite Ht; intros ? []). now split.
  - destruct Hc as (_ & _ & _ & Hq & _). congruence.
Qed.

(** While no identifier is bound, nothing the user does and no amount of
    waiting sends a write of the tree, and no identifier appears: only
    loading or
    creating a project binds one. *)
Theorem unbound_session_sends_nothing (s : State) (es : list Event) :
  reachable s -> projectId s = None ->
  forallb (fun e => negb (binds e)) es = true ->
  projectId (run es s) = None /\ writes (run es s) = writes s.
Proof.
  intros Hr. apply reachable_inv in Hr. revert s Hr.
  induction es as [|e es IH]; intros s Hi Hp Hb; [now split|].
  cbn [forallb] in Hb. apply andb_prop in Hb. destruct Hb as (Hb & Hbs).
  apply negb_true_iff in Hb.
  destruct (unbound_step e s Hi Hp Hb) as (Hp' & Hw').
  change (run (e :: es) s) with (run es (handle e s)).
  destruct (IH (handle e s) (inv_handle e s Hi) Hp' Hbs) as (H1 & H2).
  split; [exact H1|congruence].
Qed.

Lemma unbound_session_sends_nothing_witness :
  projectId (run [CodeChange "y"; Advance 5000; Delete "/src"]
               (run [Seed None [src_folder]] initial)) = None /\
  writes (run [CodeChange "y"; Advance 5000; Delete "/src"]
            (run [Seed None [src_folder]] initial))
  = writes (run [Seed None [src_folder]] initial).
Proof.
  apply (unbound_session_sends_nothing
           (run [Seed None [src_folder]] initial)
           [CodeChange "y"; Advance 5000; Delete "/src"]).
  - now exists [Seed None [src_folder]].
  - vm_compute. reflexivity.
  - reflexivity.
Defined.

(* ------------------------------------------------------------------ *)
(** ** Start-up *)

Lemma init_event_cases (existingId : option string) (get : GetOutcome)
    (post : PostOutcome) (cancelled : bool) (template : Tree) :
  let b := init existingId get post cancelled template in
  b_event b = None \/ exists pid tree, b_event b = Some (Seed pid tree).
Proof.
  unfold init, init_create, init_fallback.
  destruct existingId as [id|]; [destruct (falsy id); [|destruct get]|];
    destruct post, cancelled; cbn; eauto.
Qed.

Lemma seed_initial (pid : option string) (tree : Tree) :
  let s := seed pid tree initial in
  files s = tree /\ projectId s = pid /\
  currentFile s = findFirstFile tree /\
  clock s = 0 /\ writes s = [] /\ timers s = armed pid tree 0 0.
Proof.
  unfold seed.
  set (x := set_currentFile (findFirstFile tree)
              (set_files tree
                 match pid with
                 | Some p => set_projectId (Some p) initial
                 | None => initial
                 end)).
  assert (Hx : single_timer x) by (left; unfold x; now destruct pid).
  destruct (files_changed_spec x Hx) as (Ht & _ & _ & _ & Hk & Hw & _).
  destruct (files_changed_view x) as (Hf & Hc & Hp).
  cbn zeta. rewrite Hf, Hp, Hc, Hk, Hw, Ht.
  assert (Ep : projectId x = pid) by (unfold x; now destruct pid).
  rewrite Ep.
  replace (files x) with tree by reflexivity.
  replace (currentFile x) with (findFirstFile tree) by reflexivity.
  replace (clock x) with 0 by (unfold x; now destruct pid).
  replace (writes x) with (@nil WriteReq) by (unfold x; now destruct pid).
  replace (next_timer x) with 0 by (unfold x; now destruct pid).
  repeat split.
  destruct (findFirstFile tree) as [f|] eqn:E; [|reflexivity].
  apply reconcile_found_self. now apply findFirstFile_found_by_path.
Qed.

(** An identifier reaches the local storage only when a project was
    created with the template and the effect was still live; it is then
    the identifier the component binds, and the tree is the template. *)
Theorem init_stores_what_it_binds (existingId : option string)
    (get : GetOutcome) (post : PostOutcome) (cancelled : bool)
    (template : Tree) (i : string) :
  let b := init existingId get post cancelled template in
  b_stored b = Some i ->
  post = PostOk i /\ cancelled = false /\
  filter is_post (b_requests b) = [ReqPost template] /\
  projectId (booted b) = Some i /\ files (booted b) = template.
Proof.
  unfold init, init_create, init_fallback, booted.
  destruct existingId as [id|]; [destruct (falsy id); [|destruct get]|];
    destruct post, cancelled; cbn [b_stored b_event b_requests handle];
    try discriminate; intros [= <-];
    destruct (seed_initial (Some created_id) template) as (Hf & Hp & _);
    auto.
Qed.

Lemma init_stores_what_it_binds_witness :
  PostOk "p2" = PostOk "p2" /\ false = false /\
  filter is_post
    (b_requests (init (Some "p1") GetNotOk (PostOk "p2") false [src_folder]))
  = [ReqPost [src_folder]] /\
  projectId (booted (init (Some "p1") GetNotOk (PostOk "p2") false [src_folder]))
  = Some "p2" /\
  files (booted (init (Some "p1") GetNotOk (PostOk "p2") false [src_folder]))
  = [src_folder].
Proof.
  apply (init_stores_what_it_binds (Some "p1") GetNotOk (PostOk "p2") false
           [src_folder] "p2").
  reflexivity.
Defined.

(** A start-up that was cancelled sends the requests it would have sent
    anyway, but stores no identifier and binds none. *)
Theorem init_cancelled_binds_nothing (existingId : option string)
    (get : GetOutcome) (post : PostOutcome) (template : Tree) :
  let b := init existingId get post true template in
  b_requests b = b_requests (init existingId get post false template) /\
  b_stored b = None /\ projectId (booted b) = None.
Proof.
  unfold init, init_create, init_fallback, booted.
  destruct existingId as [id|]; [destruct (falsy id); [|destruct get]|];
    destruct post; cbn [b_stored b_event b_requests handle];
    repeat split;
    destruct (seed_initial None template) as (_ & Hp & _); auto.
Qed.

(** Whatever the backend answers at start-up, the component ends up with
    the first file of its tree as the current file, and the first write of
    the tree leaves exactly one quiet period later, provided an identifier that is
    not empty was bound and the tree has a node; before that, and
    otherwise, the persist effect sends nothing. *)
Theorem first_write_after_start_up (existingId : option string)
    (get : GetOutcome) (post : PostOutcome) (cancelled : bool)
    (template : Tree) (d : nat) :
  let s := booted (init existingId get post cancelled template) in
  currentFile s = findFirstFile (files s) /\
  writes (advance d s)
  = if Nat.ltb d quiet_period then [] else first_write s.
Proof.
  cbn zeta. unfold booted.
  destruct (init_event_cases existingId get post cancelled template)
    as [->|(pid & tree & ->)].
  - split; [reflexivity|].
    rewrite advance_idle by (intros ? []). now destruct (Nat.ltb d quiet_period).
  - cbn [handle].
    destruct (seed_initial pid tree) as (Hf & Hp & Hc & Hk & Hw & Ht).
    split; [now rewrite Hf|].
    unfold first_write. rewrite Hp, Hf.
    destruct (armed_cases pid tree 0 0) as [Ha|(p & -> & Hfal & Hne & Ha)];
      rewrite Ha in Ht.
    + rewrite advance_idle by (rewrite Ht; intros ? []).
      cbn [writes set_clock]. rewrite Hw.
      destruct (Nat.ltb d quiet_period); [reflexivity|].
      revert Ha. unfold armed. destruct pid as [p|]; [|reflexivity].
      destruct (falsy p); [reflexivity|]. now destruct tree.
    + rewrite Hfal. destruct (Nat.ltb d quiet_period) eqn:Ed.
      * apply Nat.ltb_lt in Ed.
        rewrite advance_idle
          by (rewrite Ht, Hk; intros ? [<-|[]]; cbn [due snd]; lia).
        cbn [writes set_clock]. exact Hw.
      * apply Nat.ltb_ge in Ed.
        rewrite (advance_fires d _ _ Ht)
          by (rewrite Hk; cbn [due snd]; unfold quiet_period in *; lia).
        cbn [writes set_clock fire set_timers clock due snd t_projectId t_files].
        rewrite Hw. destruct tree; [contradiction|reflexivity].
Qed.
